(** * Identity reconciliation service (bitespeed-api, services/contactService.ts)

    A shallow embedding of the contact service: the [Contact] rows of the
    store, the five store wrappers ([findContactsByEmailOrPhone],
    [findLinkedContacts], [createPrimaryContact], [createSecondaryContact],
    [updateToSecondaryContact]), the view builder
    [buildConsolidatedResponse] and the reconciliation operation
    [identifyContact].

    [identifyContact] is an [async] function whose only suspension points
    are its [await]ed store calls.  It is embedded once, as a tree of store
    calls ([Prog]); the tree is then given a sequential semantics ([run]), a
    semantics where two invocations take turns at their store calls
    ([interleave]) and one where the database rejects some of the calls
    ([run_unreliable]).

    The controller in front of the service ([identifyHandler]) and the pure
    parts of the flow builder that shares the repository (module [Flow]: the
    validation of a flow and the store's actions) follow the service. *)

From Stdlib Require Import ZArith List String Bool Lia Permutation Sorted ListSet.
From Stdlib Require Import DecimalString.
Import ListNotations.
Open Scope string_scope.
Open Scope list_scope.
Open Scope Z_scope.

(** ** Data model *)

Inductive LinkPrecedence : Type := primary | secondary.

(** The columns of a contact row that the service reads or writes. *)
Record Contact : Type := mkContact {
  id : Z;
  email : option string;
  phoneNumber : option string;
  linkedId : option Z;
  linkPrecedence : LinkPrecedence;
  createdAt : Z;
  deletedAt : option Z
}.

(** [IdentifyRequest]: [None] stands for [null] and [undefined]. *)
Record IdentifyRequest : Type := mkRequest {
  req_email : option string;
  req_phoneNumber : option string
}.

Record ConsolidatedContact : Type := mkConsolidated {
  primaryContactId : Z;
  emails : list string;
  phoneNumbers : list string;
  secondaryContactIds : list Z
}.

(** What an invocation can throw.
    - [InvalidRequest]: [Error('Either email or phoneNumber must be provided')]
    - [EmptyCluster]: [Error('No contacts provided')]
    - [TypeErrorUndefined]: reading [.id] of [undefined]
    - [RecordNotFound]: an [update] whose [where] selects no row *)
Inductive Error : Type :=
| InvalidRequest
| EmptyCluster
| TypeErrorUndefined
| RecordNotFound.

(** The store: its rows in insertion order, the next value of the
    autoincrement column and the store's clock.  [createdAt] defaults to
    [now()]; the clock is logical and advances at every insertion. *)
Record Store : Type := mkStore {
  rows : list Contact;
  nextId : Z;
  now : Z
}.

Definition empty_store : Store := mkStore [] 1 0.

(** ** JavaScript helpers *)

(** Truthiness of a [string | null | undefined]: the empty string is falsy. *)
Definition truthy (x : option string) : bool :=
  match x with
  | Some s => negb (s =? "")%string
  | None => false
  end.

(** [x || null] *)
Definition or_null (x : option string) : option string :=
  if truthy x then x else None.

Definition opt_string_eqb (x y : option string) : bool :=
  match x, y with
  | Some a, Some b => (a =? b)%string
  | None, None => true
  | _, _ => false
  end.

Definition opt_Z_eqb (x y : option Z) : bool :=
  match x, y with
  | Some a, Some b => (a =? b)%Z
  | None, None => true
  | _, _ => false
  end.

Definition is_primary (c : Contact) : bool :=
  match linkPrecedence c with primary => true | secondary => false end.

Definition is_secondary (c : Contact) : bool :=
  match linkPrecedence c with secondary => true | primary => false end.

Definition live (c : Contact) : bool :=
  match deletedAt c with None => true | Some _ => false end.

(** [orderBy: { createdAt: 'asc' }] and the comparator of
    [primaryContacts.sort]: a stable insertion sort on [createdAt]. *)
Fixpoint insert_by_createdAt (c : Contact) (l : list Contact) : list Contact :=
  match l with
  | [] => [c]
  | d :: l' =>
      if (createdAt c <? createdAt d)%Z then c :: d :: l'
      else d :: insert_by_createdAt c l'
  end.

Definition sort_by_createdAt (l : list Contact) : list Contact :=
  fold_right insert_by_createdAt [] (rev l).

(** The order of the sort. *)
Definition created_le (a b : Contact) : Prop := createdAt a <= createdAt b.

(** A JavaScript [Set] of strings keeps insertion order; [add] appends when
    the value is absent. *)
Definition set_add_str : string -> list string -> list string :=
  set_add string_dec.

Definition set_has (s : string) (l : list string) : bool :=
  existsb (String.eqb s) l.

(** [xs.map(f).filter(Boolean)] for a nullable string column [f]. *)
Fixpoint truthy_values (f : Contact -> option string) (l : list Contact)
  : list string :=
  match l with
  | [] => []
  | c :: l' =>
      match f c with
      | Some s => if truthy (Some s) then s :: truthy_values f l'
                  else truthy_values f l'
      | None => truthy_values f l'
      end
  end.

(** ** Store calls *)

Inductive StoreCall : Type :=
| FindContactsByEmailOrPhone (email phoneNumber : option string)
| FindLinkedContacts (primaryContactId : Z)
| CreatePrimaryContact (email phoneNumber : option string)
| CreateSecondaryContact (email phoneNumber : option string) (primaryContactId : Z)
| UpdateToSecondaryContact (contactId newLinkedId : Z).

Definition reply (c : StoreCall) : Type :=
  match c with
  | FindContactsByEmailOrPhone _ _ => list Contact
  | FindLinkedContacts _ => list Contact
  | CreatePrimaryContact _ _ => Contact
  | CreateSecondaryContact _ _ _ => Contact
  | UpdateToSecondaryContact _ _ => Contact
  end.

(** [where: { deletedAt: null, OR: [ email?, phoneNumber? ] }] *)
Definition matches (e p : option string) (c : Contact) : bool :=
  live c &&
  ((truthy e && opt_string_eqb (email c) e)
   || (truthy p && opt_string_eqb (phoneNumber c) p)).

Definition find_by (e p : option string) (st : Store) : list Contact :=
  sort_by_createdAt (filter (matches e p) (rows st)).

(** [where: { OR: [ {id}, {linkedId} ], deletedAt: null }] *)
Definition in_cluster (pid : Z) (c : Contact) : bool :=
  ((id c =? pid)%Z || opt_Z_eqb (linkedId c) (Some pid)) && live c.

Definition find_linked (pid : Z) (st : Store) : list Contact :=
  sort_by_createdAt (filter (in_cluster pid) (rows st)).

Definition new_row (st : Store) (e p : option string) (l : option Z)
  (lp : LinkPrecedence) : Contact :=
  mkContact (nextId st) e p l lp (now st) None.

Definition with_rows (st : Store) (rs : list Contact) : Store :=
  mkStore rs (nextId st) (now st).

Definition insert_row (st : Store) (c : Contact) : Store :=
  mkStore (rows st ++ [c]) (nextId st + 1) (now st + 1).

(** The [data] of [updateToSecondaryContact]. *)
Definition demote (newLinkedId : Z) (c : Contact) : Contact :=
  mkContact (id c) (email c) (phoneNumber c) (Some newLinkedId) secondary
            (createdAt c) (deletedAt c).

Definition demote_where (contactId newLinkedId : Z) (c : Contact) : Contact :=
  if (id c =? contactId)%Z then demote newLinkedId c else c.

Definition exec (c : StoreCall) (st : Store) : (Error + reply c) * Store :=
  match c return (Error + reply c) * Store with
  | FindContactsByEmailOrPhone e p => (inr (find_by e p st), st)
  | FindLinkedContacts pid => (inr (find_linked pid st), st)
  | CreatePrimaryContact e p =>
      let c := new_row st e p None primary in (inr c, insert_row st c)
  | CreateSecondaryContact e p pid =>
      let c := new_row st e p (Some pid) secondary in (inr c, insert_row st c)
  | UpdateToSecondaryContact cid lid =>
      match find (fun r => (id r =? cid)%Z) (rows st) with
      | Some r =>
          (inr (demote lid r),
           with_rows st (map (demote_where cid lid) (rows st)))
      | None => (inl RecordNotFound, st)
      end
  end.

(** ** Programs over the store *)

Inductive Prog (A : Type) : Type :=
| Ret (a : A)
| Throw (e : Error)
| Call (c : StoreCall) (k : reply c -> Prog A).

Arguments Ret {A} a.
Arguments Throw {A} e.
Arguments Call {A} c k.

Fixpoint bind {A B : Type} (p : Prog A) (f : A -> Prog B) : Prog B :=
  match p with
  | Ret a => f a
  | Throw e => Throw e
  | Call c k => Call c (fun r => bind (k r) f)
  end.

Declare Scope prog_scope.
Delimit Scope prog_scope with prog.
Notation "x <- p ;; q" := (bind p (fun x => q))
  (at level 100, p at next level, right associativity) : prog_scope.
Notation "p ;; q" := (bind p (fun _ => q))
  (at level 100, right associativity) : prog_scope.
Open Scope prog_scope.

Definition findContactsByEmailOrPhone (e p : option string)
  : Prog (list Contact) :=
  Call (FindContactsByEmailOrPhone e p) Ret.

Definition findLinkedContacts (pid : Z) : Prog (list Contact) :=
  Call (FindLinkedContacts pid) Ret.

Definition createPrimaryContact (e p : option string) : Prog Contact :=
  Call (CreatePrimaryContact e p) Ret.

Definition createSecondaryContact (e p : option string) (pid : Z)
  : Prog Contact :=
  Call (CreateSecondaryContact e p pid) Ret.

Definition updateToSecondaryContact (cid lid : Z) : Prog Contact :=
  Call (UpdateToSecondaryContact cid lid) Ret.

(** [x.id] for an [x] that may be [undefined]. *)
Definition id_of (x : option Contact) : Prog Z :=
  match x with
  | Some c => Ret (id c)
  | None => Throw TypeErrorUndefined
  end.

Definition lift {A : Type} (r : Error + A) : Prog A :=
  match r with
  | inl e => Throw e
  | inr a => Ret a
  end.

Fixpoint for_each {A : Type} (l : list A) (body : A -> Prog unit) : Prog unit :=
  match l with
  | [] => Ret tt
  | x :: l' => body x ;; for_each l' body
  end.

(** ** The view builder *)

Definition View : Type := (list string * list string * list Z)%type.

(** [if (contact.f) values.add(contact.f)] *)
Definition add_value (f : Contact -> option string) (values : list string)
  (contact : Contact) : list string :=
  match f contact with
  | Some s => if truthy (Some s) then set_add_str s values else values
  | None => values
  end.

(** One iteration of the loop over [contacts]. *)
Definition collect (acc : View) (contact : Contact) : View :=
  let '(emails, phoneNumbers, secondaryContactIds) := acc in
  let secondaryContactIds :=
    if is_secondary contact then secondaryContactIds ++ [id contact]
    else secondaryContactIds in
  let emails := add_value email emails contact in
  let phoneNumbers := add_value phoneNumber phoneNumbers contact in
  (emails, phoneNumbers, secondaryContactIds).

Definition buildConsolidatedResponse (contacts : list Contact)
  : Error + ConsolidatedContact :=
  match contacts with
  | [] => inl EmptyCluster
  | first :: _ =>
      let primaryContact :=
        match find is_primary contacts with
        | Some c => c
        | None => first
        end in
      let '(emails, phoneNumbers, secondaryContactIds) :=
        fold_left collect contacts ([], [], []) in
      inr (mkConsolidated (id primaryContact) emails phoneNumbers
                          secondaryContactIds)
  end.

(** ** The reconciliation operation *)

(** [new Set(existingContacts.map(c => c.email).filter(Boolean))] and its
    phone counterpart; only [has] is used on them. *)
Definition emails_of (existingContacts : list Contact) : list string :=
  truthy_values email existingContacts.

Definition phones_of (existingContacts : list Contact) : list string :=
  truthy_values phoneNumber existingContacts.

(** [value && !existing.has(value)] *)
Definition is_new (value : option string) (existing : list string) : bool :=
  match value with
  | Some s => truthy value && negb (set_has s existing)
  | None => false
  end.

(** [value ? [value] : []] *)
Definition singleton_value (value : option string) : list string :=
  match value with
  | Some s => if truthy value then [s] else []
  | None => []
  end.

(** The body of the demotion loop. *)
Definition demotion (oldestPrimary : option Contact) (c : Contact)
  : Prog unit :=
  oid <- id_of oldestPrimary ;;
  updateToSecondaryContact (id c) oid ;;
  Ret tt.

Definition identifyContact (request : IdentifyRequest)
  : Prog ConsolidatedContact :=
  let email := req_email request in
  let phoneNumber := req_phoneNumber request in
  if negb (truthy email) && negb (truthy phoneNumber) then
    Throw InvalidRequest
  else
    existingContacts <- findContactsByEmailOrPhone email phoneNumber ;;
    if (Z.of_nat (List.length existingContacts) =? 0)%Z then
      newContact <- createPrimaryContact (or_null email) (or_null phoneNumber) ;;
      Ret (mkConsolidated (id newContact) (singleton_value email)
                          (singleton_value phoneNumber) [])
    else
      let primaryContacts :=
        sort_by_createdAt (filter is_primary existingContacts) in
      let oldestPrimary := hd_error primaryContacts in
      let existingEmails := emails_of existingContacts in
      let existingPhones := phones_of existingContacts in
      let hasNewEmail := is_new email existingEmails in
      let hasNewPhone := is_new phoneNumber existingPhones in
      (if (1 <? Z.of_nat (List.length primaryContacts))%Z then
         for_each (tl primaryContacts) (demotion oldestPrimary)
       else Ret tt) ;;
      (if hasNewEmail || hasNewPhone then
         oid <- id_of oldestPrimary ;;
         createSecondaryContact (or_null email) (or_null phoneNumber) oid ;;
         Ret tt
       else Ret tt) ;;
      oid <- id_of oldestPrimary ;;
      allContacts <- findLinkedContacts oid ;;
      lift (buildConsolidatedResponse allContacts).

(** ** Sequential semantics *)

Definition Outcome (A : Type) : Type :=
  (list StoreCall * Store * (Error + A))%type.

Fixpoint run {A : Type} (p : Prog A) (st : Store) : Outcome A :=
  match p with
  | Ret a => ([], st, inr a)
  | Throw e => ([], st, inl e)
  | Call c k =>
      match exec c st with
      | (inl e, st') => ([c], st', inl e)
      | (inr r, st') =>
          let '(calls, st'', res) := run (k r) st' in (c :: calls, st'', res)
      end
  end.

Definition identify (request : IdentifyRequest) (st : Store)
  : Outcome ConsolidatedContact :=
  run (identifyContact request) st.

Definition final_store {A : Type} (o : Outcome A) : Store := snd (fst o).
Definition store_calls {A : Type} (o : Outcome A) : list StoreCall := fst (fst o).
Definition result {A : Type} (o : Outcome A) : Error + A := snd o.


(** ** Two invocations taking turns

    Between two [await]s an invocation runs without interruption; a store
    call is where another invocation can get its turn.  [step] performs the
    next store call of a program. *)

Definition step {A : Type} (p : Prog A) (st : Store) : Prog A * Store :=
  match p with
  | Call c k =>
      match exec c st with
      | (inl e, st') => (Throw e, st')
      | (inr r, st') => (k r, st')
      end
  | _ => (p, st)
  end.

Fixpoint steps {A : Type} (n : nat) (p : Prog A) (st : Store)
  : Prog A * Store :=
  match n with
  | O => (p, st)
  | S n' => let '(p', st') := step p st in steps n' p' st'
  end.

Inductive Caller : Type := callerA | callerB.

Fixpoint interleave {A : Type} (schedule : list Caller) (a b : Prog A)
  (st : Store) : Prog A * Prog A * Store :=
  match schedule with
  | [] => (a, b, st)
  | callerA :: schedule' =>
      let '(a', st') := step a st in interleave schedule' a' b st'
  | callerB :: schedule' =>
      let '(b', st') := step b st in interleave schedule' a b' st'
  end.

(** ** Well-formed and reachable stores *)

(** What the store guarantees of its rows: [id] is a key, the autoincrement
    counter is above every [id], and so is every [linkedId] in use. *)
Record wf (st : Store) : Prop := mkWf {
  wf_key : NoDup (map id (rows st));
  wf_fresh : forall c, In c (rows st) -> id c < nextId st;
  wf_links : forall c k, In c (rows st) -> linkedId c = Some k -> k < nextId st
}.

(** Stores reached from the empty store by successful invocations. *)
Inductive reachable : Store -> Prop :=
| reach_empty : reachable empty_store
| reach_identify st request view :
    reachable st ->
    result (identify request st) = inr view ->
    reachable (final_store (identify request st)).

(** The store after a sequence of invocations. *)
Definition after (requests : list IdentifyRequest) (st : Store) : Store :=
  fold_left (fun s r => final_store (identify r s)) requests st.

(** All of the invocations of a sequence succeed. *)
Fixpoint all_succeed (requests : list IdentifyRequest) (st : Store) : bool :=
  match requests with
  | [] => true
  | r :: rest =>
      match result (identify r st) with
      | inr _ => all_succeed rest (final_store (identify r st))
      | inl _ => false
      end
  end.

(** ** Properties of stores and views *)

(** A secondary's [linkedId] names a live primary. *)
Definition resolves_to_primary (st : Store) (c : Contact) : bool :=
  match linkedId c with
  | Some k =>
      existsb (fun p => (id p =? k) && is_primary p && live p) (rows st)
  | None => false
  end.

(** Every live contact is a primary or one hop away from a live primary. *)
Definition one_hop (st : Store) : bool :=
  forallb (fun c => negb (live c) || is_primary c || resolves_to_primary st c)
          (rows st).

(** No live contact of the store holds the value [v] in column [f]. *)
Definition value_free (f : Contact -> option string) (v : option string)
  (st : Store) : bool :=
  negb (existsb (fun c => live c && opt_string_eqb (f c) v) (rows st)).

(** A field of a request is absent when it is [null], [undefined] or the
    empty string. *)
Definition absent (v : option string) : bool := negb (truthy v).

(** The distinct values of a list, each at its first occurrence. *)
Fixpoint first_occurrences (xs : list string) : list string :=
  match xs with
  | [] => []
  | x :: xs' => x :: remove string_dec x (first_occurrences xs')
  end.

(** The primary's own value for the column [f], when it has one, is the
    first of [values]. *)
Definition primary_value_first (f : Contact -> option string)
  (contacts : list Contact) (values : list string) : Prop :=
  forall P s,
    find is_primary contacts = Some P ->
    f P = Some s -> truthy (Some s) = true ->
    hd_error values = Some s.

Definition unseen (acc : list string) (s : string) : bool :=
  negb (set_has s acc).

(** *** The view of a cluster, in the words of the specification

    These two follow the specification of the view, not the code of the
    builder; the builder is compared with them. *)

(** The distinct non-empty values of a column: the primary's own value first,
    if it has one, then the remaining values in ascending [createdAt] order
    of the owning contact, each value once. *)
Definition spec_values (f : Contact -> option string)
  (cluster : list Contact) : list string :=
  let own :=
    match find is_primary cluster with
    | Some P => truthy_values f [P]
    | None => []
    end in
  first_occurrences (own ++ truthy_values f (sort_by_createdAt cluster)).

(** The ids of the non-primary members, in ascending [createdAt] order. *)
Definition spec_secondaryContactIds (cluster : list Contact) : list Z :=
  map id (sort_by_createdAt (filter (fun c => negb (is_primary c)) cluster)).

(** ** The mutations of a merge, in closed form *)

Definition demote_ids (ids : list Z) (lid : Z) (c : Contact) : Contact :=
  if existsb (Z.eqb (id c)) ids then demote lid c else c.

Definition new_information (e p : option string)
  (existingContacts : list Contact) : bool :=
  is_new e (emails_of existingContacts) || is_new p (phones_of existingContacts).

(** The store after the invocation that matched the primaries [P :: rest]. *)
Definition merged_store (e p : option string) (P : Contact)
  (rest : list Contact) (st : Store) : Store :=
  let st1 := with_rows st (map (demote_ids (map id rest) (id P)) (rows st)) in
  if new_information e p (find_by e p st) then
    insert_row st1 (new_row st1 (or_null e) (or_null p) (Some (id P)) secondary)
  else st1.

(** The store calls of that invocation. *)
Definition merge_calls (e p : option string) (P : Contact)
  (rest : list Contact) (st : Store) : list StoreCall :=
  FindContactsByEmailOrPhone e p
  :: map (fun c => UpdateToSecondaryContact (id c) (id P)) rest
  ++ (if new_information e p (find_by e p st)
      then [CreateSecondaryContact (or_null e) (or_null p) (id P)] else [])
  ++ [FindLinkedContacts (id P)].

(** ** Scenarios *)

Definition request (e p : option string) : IdentifyRequest := mkRequest e p.

(** Two clusters, the second with a secondary of its own:
    P1 = (a@x.com, 111), P2 = (b@x.com, 222), S = (b@x.com, 333) under P2. *)
Definition two_clusters : Store :=
  after [request (Some "a@x.com") (Some "111");
         request (Some "b@x.com") (Some "222");
         request (Some "b@x.com") (Some "333")] empty_store.

(** The request that joins them on P1's email and P2's phone. *)
Definition joining_request : IdentifyRequest :=
  request (Some "a@x.com") (Some "222").

Definition joined : Store := final_store (identify joining_request two_clusters).

(** Two primaries with nothing in common: P1 = (a@x.com, -), created first,
    and P2 = (-, 222). *)
Definition two_primaries : Store :=
  after [request (Some "a@x.com") None; request None (Some "222")] empty_store.

Definition two_primaries_merged : Store :=
  final_store (identify joining_request two_primaries).

(** One primary (a@x.com, 111), then the same email with a new phone. *)
Definition one_primary : Store :=
  after [request (Some "a@x.com") (Some "111")] empty_store.

Definition primary_and_secondary : Store :=
  final_store (identify joining_request one_primary).

(** A sequence without a primary. *)
Definition orphans : list Contact :=
  [ mkContact 5 (Some "c@x.com") None (Some 4) secondary 7 None;
    mkContact 6 None (Some "444") (Some 4) secondary 8 None ].

(** ** More properties of stores and calls *)

(** The columns of a contact that no store call of the service rewrites. *)
Definition columns (c : Contact)
  : Z * option string * option string * Z * option Z :=
  (id c, email c, phoneNumber c, createdAt c, deletedAt c).

(** The store calls that change the store. *)
Definition is_write (c : StoreCall) : bool :=
  match c with
  | FindContactsByEmailOrPhone _ _ | FindLinkedContacts _ => false
  | _ => true
  end.

Definition is_create (c : StoreCall) : bool :=
  match c with
  | CreatePrimaryContact _ _ | CreateSecondaryContact _ _ _ => true
  | _ => false
  end.

(** What holds of the rows of a store that only the service has written:
    nothing is deleted, a primary has no link, a secondary links to an older
    contact of the store, creation times are distinct and in the past, and a
    stored value is never the empty string. *)
Record consistent (st : Store) : Prop := mkConsistent {
  never_deleted : forall c, In c (rows st) -> deletedAt c = None;
  primary_unlinked :
    forall c, In c (rows st) -> is_primary c = true -> linkedId c = None;
  secondary_linked :
    forall c, In c (rows st) -> is_secondary c = true ->
    exists q, In q (rows st) /\ linkedId c = Some (id q) /\
              createdAt q < createdAt c;
  created_in_past : forall c, In c (rows st) -> createdAt c < now st;
  created_distinct : NoDup (map createdAt (rows st));
  values_present :
    forall c, In c (rows st) ->
    email c <> Some "" /\ phoneNumber c <> Some "" /\
    (email c <> None \/ phoneNumber c <> None)
}.

(** ** Store calls that the database rejects

    [run] lets every find and every create succeed.  The promise of any store
    call can also be rejected; the service has no [try], so the rejection
    leaves [identifyContact] at the [await].  [rejects] tells, by position,
    which store calls of an invocation are rejected; a rejected call leaves
    the store as it is. *)

Inductive Failure : Type :=
| thrown (e : Error)
| rejected (c : StoreCall).

Definition Attempt (A : Type) : Type :=
  (list StoreCall * Store * (Failure + A))%type.

Fixpoint run_unreliable {A : Type} (rejects : list bool) (p : Prog A)
  (st : Store) : Attempt A :=
  match p with
  | Ret a => ([], st, inr a)
  | Throw e => ([], st, inl (thrown e))
  | Call c k =>
      match rejects with
      | true :: _ => ([c], st, inl (rejected c))
      | _ =>
          match exec c st with
          | (inl e, st') => ([c], st', inl (thrown e))
          | (inr r, st') =>
              let '(calls, st'', res) :=
                run_unreliable (tl rejects) (k r) st' in
              (c :: calls, st'', res)
          end
      end
  end.

(** No path of the program ends in [throw e], whatever the store replies. *)
Fixpoint never_throws {A : Type} (e : Error) (p : Prog A) : Prop :=
  match p with
  | Ret _ => True
  | Throw e' => e' <> e
  | Call c k => forall r, never_throws e (k r)
  end.

(** ** The controller (controllers/identifyController.ts) *)

(** A field of the request body: [undefined] when the key is missing. *)
Inductive JsString : Type :=
| js_undefined
| js_null
| js_string (s : string).

Record RequestBody : Type := mkBody {
  body_email : JsString;
  body_phoneNumber : JsString
}.

Definition is_undefined (x : JsString) : bool :=
  match x with js_undefined => true | _ => false end.

(** The field as the service sees it; it tells [null] from [undefined]
    nowhere. *)
Definition field_of (x : JsString) : option string :=
  match x with js_string s => Some s | _ => None end.

(** The [message] of a response: a literal, or [error.message] of the error
    that was caught. *)
Inductive Message : Type :=
| message_text (s : string)
| message_of (error : Error).

Inductive ResponseBody : Type :=
| contact_body (contact : ConsolidatedContact)
| error_body (error : string) (message : Message).

Record Response : Type := mkResponse {
  status : Z;
  body : ResponseBody
}.

(** [identifyHandler]: the [try] block runs the service; whatever it throws
    is caught and answered with 500. *)
Definition identifyHandler (requestBody : RequestBody) (st : Store)
  : Outcome Response :=
  let email := body_email requestBody in
  let phoneNumber := body_phoneNumber requestBody in
  if is_undefined email && is_undefined phoneNumber then
    ([], st,
     inr (mkResponse 400
            (error_body "Bad Request"
               (message_text "Either email or phoneNumber must be provided"))))
  else
    let '(calls, st', result) :=
      run (identifyContact (mkRequest (field_of email) (field_of phoneNumber)))
          st in
    match result with
    | inr result => (calls, st', inr (mkResponse 200 (contact_body result)))
    | inl error =>
        (calls, st',
         inr (mkResponse 500
                (error_body "Internal Server Error" (message_of error))))
    end.

(** ** The flow builder (chatbot-flow: utils/validation.js, store/flowStore.js) *)

Module Flow.

(** An object with string-valued properties, in insertion order. *)
Definition Obj : Type := list (string * string).

Fixpoint obj_get (o : Obj) (key : string) : option string :=
  match o with
  | [] => None
  | (k, v) :: o' => if (k =? key)%string then Some v else obj_get o' key
  end.

(** [o[key] = value]: an existing key keeps its place. *)
Fixpoint obj_set (o : Obj) (key value : string) : Obj :=
  match o with
  | [] => [(key, value)]
  | (k, v) :: o' =>
      if (k =? key)%string then (k, value) :: o'
      else (k, v) :: obj_set o' key value
  end.

(** [{ ...a, ...b }] *)
Definition spread (a b : Obj) : Obj :=
  fold_left (fun o kv => obj_set o (fst kv) (snd kv)) b a.

(** The fields of a node and of an edge that the store and the validation
    read or write. *)
Record Node : Type := mkNode {
  node_id : string;
  node_type : string;
  node_data : Obj
}.

Record Edge : Type := mkEdge {
  edge_id : string;
  source : string;
  target : string
}.

(** *** utils/validation.js *)

Definition hasTargetHandle (nodeId : string) (edges : list Edge) : bool :=
  existsb (fun edge => (target edge =? nodeId)%string) edges.

Definition hasSourceHandle (nodeId : string) (edges : list Edge) : bool :=
  existsb (fun edge => (source edge =? nodeId)%string) edges.

Definition sourceHasConnection (sourceId : string) (edges : list Edge) : bool :=
  existsb (fun edge => (source edge =? sourceId)%string) edges.

Record ValidationResult (A : Type) : Type := mkResult {
  valid : bool;
  error : option string;
  disconnectedNodes : option (list A)
}.

Arguments mkResult {A} valid error disconnectedNodes.
Arguments valid {A} v.
Arguments error {A} v.
Arguments disconnectedNodes {A} v.

(** [`${n}`] for a length. *)
Definition show_length {A : Type} (l : list A) : string :=
  NilZero.string_of_uint (Nat.to_uint (List.length l)).

Definition validateFlow (nodes : list Node) (edges : list Edge)
  : ValidationResult string :=
  if (List.length nodes =? 0)%nat then
    mkResult false (Some "No nodes in the flow to save.") None
  else if (List.length nodes =? 1)%nat then
    mkResult true None None
  else
    let disconnectedNodes :=
      filter (fun node => negb (hasTargetHandle (node_id node) edges)) nodes in
    if (1 <? List.length disconnectedNodes)%nat then
      mkResult false
        (Some (show_length disconnectedNodes
               ++ " nodes have empty target handles. Please connect all nodes before saving.")%string)
        (Some (map node_id disconnectedNodes))
    else mkResult true None None.

(** *** store/flowStore.js *)

Record Toast : Type := mkToast {
  toast_id : Z;
  toast_message : string;
  toast_type : string
}.

Record Notice : Type := mkNotice {
  notice_type : string;
  notice_text : string
}.

Record State : Type := mkState {
  nodes : list Node;
  edges : list Edge;
  selectedNode : option Node;
  message : option Notice;
  toasts : list Toast
}.

(** The store and the module's [toastId] counter. *)
Record World : Type := mkWorld {
  toastId : Z;
  state : State
}.

Definition initial : World := mkWorld 0 (mkState [] [] None None []).

Definition setNodes (ns : list Node) (s : State) : State :=
  mkState ns (edges s) (selectedNode s) (message s) (toasts s).

Definition setEdges (es : list Edge) (s : State) : State :=
  mkState (nodes s) es (selectedNode s) (message s) (toasts s).

Definition addNode (node : Node) (s : State) : State :=
  mkState (nodes s ++ [node]) (edges s) (selectedNode s) (message s) (toasts s).

(** [{ ...node, data: { ...node.data, ...data } }] *)
Definition with_data (node : Node) (data : Obj) : Node :=
  mkNode (node_id node) (node_type node) (spread (node_data node) data).

Definition updateNodeData (nodeId : string) (data : Obj) (s : State) : State :=
  mkState
    (map (fun node => if (node_id node =? nodeId)%string
                      then with_data node data else node) (nodes s))
    (edges s)
    (match selectedNode s with
     | Some selected =>
         if (node_id selected =? nodeId)%string
         then Some (with_data selected data) else Some selected
     | None => None
     end)
    (message s) (toasts s).

Definition selectNode (node : option Node) (s : State) : State :=
  mkState (nodes s) (edges s) node None (toasts s).

Definition clearSelection (s : State) : State :=
  mkState (nodes s) (edges s) None None (toasts s).

Definition setMessage (m : option Notice) (s : State) : State :=
  mkState (nodes s) (edges s) (selectedNode s) m (toasts s).

Definition clearMessage (s : State) : State :=
  mkState (nodes s) (edges s) (selectedNode s) None (toasts s).

(** [addToast(message, type = 'success')]: returns the new id. *)
Definition addToast (msg : string) (type : option string) (w : World)
  : Z * World :=
  let id := toastId w + 1 in
  let s := state w in
  (id,
   mkWorld id
     (mkState (nodes s) (edges s) (selectedNode s) (message s)
        (toasts s ++ [mkToast id msg (match type with
                                      | Some t => t
                                      | None => "success"
                                      end)]))).

Definition removeToast (id : Z) (s : State) : State :=
  mkState (nodes s) (edges s) (selectedNode s) (message s)
          (filter (fun t => negb (toast_id t =? id)) (toasts s)).

(** The store's own [validateFlow]. *)
Definition store_validateFlow (s : State) : ValidationResult Node :=
  if (List.length (nodes s) <=? 1)%nat then mkResult true None None
  else
    let nodesWithoutTarget :=
      filter (fun node =>
                negb (existsb (fun edge => (target edge =? node_id node)%string)
                              (edges s)))
             (nodes s) in
    if (1 <? List.length nodesWithoutTarget)%nat then
      mkResult false
        (Some ("Error: " ++ show_length nodesWithoutTarget
               ++ " nodes have empty target handles. Please connect all nodes before saving.")%string)
        (Some nodesWithoutTarget)
    else mkResult true None None.

(** What a user of the store can do to it. *)
Inductive Action : Type :=
| SetNodes (ns : list Node)
| SetEdges (es : list Edge)
| AddNode (node : Node)
| UpdateNodeData (nodeId : string) (data : Obj)
| SelectNode (node : option Node)
| ClearSelection
| SetMessage (m : option Notice)
| ClearMessage
| AddToast (msg : string) (type : option string)
| RemoveToast (id : Z).

Definition perform (a : Action) (w : World) : World :=
  match a with
  | SetNodes ns => mkWorld (toastId w) (setNodes ns (state w))
  | SetEdges es => mkWorld (toastId w) (setEdges es (state w))
  | AddNode node => mkWorld (toastId w) (addNode node (state w))
  | UpdateNodeData nodeId data =>
      mkWorld (toastId w) (updateNodeData nodeId data (state w))
  | SelectNode node => mkWorld (toastId w) (selectNode node (state w))
  | ClearSelection => mkWorld (toastId w) (clearSelection (state w))
  | SetMessage m => mkWorld (toastId w) (setMessage m (state w))
  | ClearMessage => mkWorld (toastId w) (clearMessage (state w))
  | AddToast msg type => snd (addToast msg type w)
  | RemoveToast id => mkWorld (toastId w) (removeToast id (state w))
  end.

End Flow.

(** A node without an incoming edge. *)
Definition no_incoming (edges : list Flow.Edge) (node : Flow.Node) : bool :=
  negb (Flow.hasTargetHandle (Flow.node_id node) edges).

(** The toasts of the store carry distinct ids that the counter has passed. *)
Definition toasts_ok (w : Flow.World) : Prop :=
  0 <= Flow.toastId w /\
  NoDup (map Flow.toast_id (Flow.toasts (Flow.state w))) /\
  forall t, In t (Flow.toasts (Flow.state w)) ->
            0 < Flow.toast_id t <= Flow.toastId w.

Definition perform_all (actions : list Flow.Action) (w : Flow.World)
  : Flow.World :=
  fold_left (fun w a => Flow.perform a w) actions w.

(** *** Rows and flows of the examples *)

(** The contact of [one_primary], also the first contact of [two_clusters]. *)
Definition first_contact : Contact :=
  mkContact 1 (Some "a@x.com") (Some "111") None primary 0 None.

(** The second contact of [two_primaries]. *)
Definition phone_only_contact : Contact :=
  mkContact 2 None (Some "222") None primary 1 None.

(** The third contact of [two_clusters], a secondary of the second. *)
Definition dependent_contact : Contact :=
  mkContact 3 (Some "b@x.com") (Some "333") (Some 2) secondary 2 None.

Definition node_a : Flow.Node := Flow.mkNode "a" "textNode" [("text", "")].
Definition node_b : Flow.Node := Flow.mkNode "b" "textNode" [("text", "")].
Definition edge_ab : Flow.Edge := Flow.mkEdge "e1" "a" "b".
Definition edge_ba : Flow.Edge := Flow.mkEdge "e2" "b" "a".
Definition edge_xb : Flow.Edge := Flow.mkEdge "e3" "x" "b".

Definition one_node_selected : Flow.State :=
  Flow.mkState [node_a; node_b] [edge_ab] (Some node_a) None [].

Definition two_toasts : Flow.State :=
  Flow.mkState [] [] None None
    [Flow.mkToast 1 "saved" "success"; Flow.mkToast 2 "failed" "error"].

(** ** Sorting by [createdAt] *)

Lemma insert_by_createdAt_perm c l :
  Permutation (insert_by_createdAt c l) (c :: l).
Proof.
  induction l as [|d l IH]; simpl.
  - apply Permutation_refl.
  - destruct (createdAt c <? createdAt d).
    + apply Permutation_refl.
    + eapply perm_trans; [apply perm_skip, IH | apply perm_swap].
Qed.

Lemma fold_insert_perm l :
  Permutation (fold_right insert_by_createdAt [] l) l.
Proof.
  induction l as [|c l IH]; simpl.
  - constructor.
  - eapply perm_trans; [apply insert_by_createdAt_perm | now apply perm_skip].
Qed.

Lemma sort_by_createdAt_perm l : Permutation (sort_by_createdAt l) l.
Proof.
  unfold sort_by_createdAt.
  eapply perm_trans; [apply fold_insert_perm|].
  apply Permutation_sym, Permutation_rev.
Qed.

Lemma sort_by_createdAt_In c l : In c (sort_by_createdAt l) <-> In c l.
Proof.
  split; apply Permutation_in;
    [apply sort_by_createdAt_perm | apply Permutation_sym, sort_by_createdAt_perm].
Qed.

Lemma sort_by_createdAt_nil l : sort_by_createdAt l = [] -> l = [].
Proof.
  intros H. apply Permutation_nil. rewrite <- H.
  apply sort_by_createdAt_perm.
Qed.

Lemma sort_by_createdAt_single c : sort_by_createdAt [c] = [c].
Proof. reflexivity. Qed.

Lemma insert_by_createdAt_sorted c l :
  StronglySorted created_le l ->
  StronglySorted created_le (insert_by_createdAt c l).
Proof.
  induction 1 as [|d l Hs IH Hd]; cbn [insert_by_createdAt].
  - repeat constructor.
  - destruct (createdAt c <? createdAt d) eqn:E.
    + apply Z.ltb_lt in E. constructor; [now constructor|].
      constructor; [unfold created_le; lia|].
      eapply Forall_impl; [|exact Hd]. unfold created_le. intros x Hx. lia.
    + apply Z.ltb_ge in E. constructor; [exact IH|].
      eapply Permutation_Forall.
      * apply Permutation_sym, insert_by_createdAt_perm.
      * constructor; [exact E | exact Hd].
Qed.

Lemma sort_by_createdAt_sorted l :
  StronglySorted created_le (sort_by_createdAt l).
Proof.
  unfold sort_by_createdAt. induction (rev l) as [|c r IH]; simpl.
  - constructor.
  - now apply insert_by_createdAt_sorted.
Qed.

(** Equal timestamps keep the order of the input: a contact is inserted
    after the contacts that are not younger than it. *)
Lemma insert_by_createdAt_last c l :
  Forall (fun d => createdAt d <= createdAt c) l ->
  insert_by_createdAt c l = l ++ [c].
Proof.
  induction 1 as [|d l Hd _ IH]; cbn [insert_by_createdAt app]; [reflexivity|].
  replace (createdAt c <? createdAt d) with false
    by (symmetry; apply Z.ltb_ge; lia).
  now rewrite IH.
Qed.

Lemma sort_by_createdAt_sorted_id l :
  StronglySorted created_le l -> sort_by_createdAt l = l.
Proof.
  unfold sort_by_createdAt.
  induction l as [|c l IH] using rev_ind; intros Hs; [reflexivity|].
  rewrite rev_app_distr. cbn [rev app fold_right].
  assert (StronglySorted created_le l /\
          Forall (fun d => createdAt d <= createdAt c) l) as [Hl Hc].
  { clear IH. induction l as [|d l IH]; [split; constructor|].
    cbn [app] in Hs. inversion Hs as [|? ? Hs' Hd]; subst.
    destruct (IH Hs') as [Hl Hc]. split.
    - constructor; [exact Hl|].
      apply Forall_app in Hd as [Hd _]. exact Hd.
    - constructor; [|exact Hc].
      apply Forall_app in Hd as [_ Hd]. now inversion Hd. }
  rewrite (IH Hl). now apply insert_by_createdAt_last.
Qed.

Lemma perm_singleton (c : Contact) l : Permutation l [c] -> l = [c].
Proof.
  intros H. apply Permutation_sym in H. now apply Permutation_length_1_inv in H.
Qed.

Lemma filter_perm {A} (f : A -> bool) l l' :
  Permutation l l' -> Permutation (filter f l) (filter f l').
Proof.
  induction 1; simpl.
  - constructor.
  - destruct (f x); auto.
  - destruct (f x), (f y); auto. apply perm_swap.
  - eapply perm_trans; eauto.
Qed.

Lemma filter_filter {A} (f g : A -> bool) l :
  filter f (filter g l) = filter (fun x => g x && f x) l.
Proof.
  induction l as [|x l IH]; simpl; auto.
  destruct (g x); simpl; [destruct (f x)|]; now rewrite IH.
Qed.

(** ** Sets of strings *)

Lemma set_has_In s l : set_has s l = true <-> In s l.
Proof.
  unfold set_has. rewrite existsb_exists. split.
  - intros (x & Hx & E). apply String.eqb_eq in E. now subst.
  - intros H. exists s. split; auto. apply String.eqb_refl.
Qed.

Lemma truthy_Some s : truthy (Some s) = true <-> s <> "".
Proof.
  simpl. rewrite negb_true_iff. split.
  - intros H E. subst. discriminate.
  - intros H. now apply String.eqb_neq.
Qed.

Lemma truthy_values_In f s l :
  In s (truthy_values f l) <->
  exists c, In c l /\ f c = Some s /\ truthy (Some s) = true.
Proof.
  induction l as [|c l IH]; simpl.
  - split; [tauto | intros (c & [] & _)].
  - destruct (f c) as [t|] eqn:E.
    + destruct (negb (t =? "")%string) eqn:T; simpl; rewrite IH.
      * split.
        -- intros [<- | (d & Hd & Hs)].
           ++ exists c. simpl. rewrite T. auto.
           ++ exists d. auto.
        -- intros (d & [<- | Hd] & Hs & Ht).
           ++ left. congruence.
           ++ right. exists d. auto.
      * split.
        -- intros (d & Hd & Hs). exists d. auto.
        -- intros (d & [<- | Hd] & Hs & Ht).
           ++ simpl in Ht. congruence.
           ++ exists d. auto.
    + rewrite IH. split.
      * intros (d & Hd & Hs). exists d. auto.
      * intros (d & [<- | Hd] & Hs & Ht); [congruence | exists d; auto].
Qed.

Lemma opt_string_eqb_eq x y : opt_string_eqb x y = true <-> x = y.
Proof.
  destruct x, y; simpl; try (split; congruence).
  rewrite String.eqb_eq. split; congruence.
Qed.

Lemma opt_Z_eqb_eq x y : opt_Z_eqb x y = true <-> x = y.
Proof.
  destruct x, y; simpl; try (split; congruence).
  rewrite Z.eqb_eq. split; congruence.
Qed.

(** ** The view builder, in closed form *)

Lemma collect_eq acc c :
  collect acc c =
  (add_value email (fst (fst acc)) c,
   add_value phoneNumber (snd (fst acc)) c,
   snd acc ++ (if is_secondary c then [id c] else [])).
Proof.
  destruct acc as [[es ps] ids]. unfold collect. simpl.
  destruct (is_secondary c); [|rewrite app_nil_r]; reflexivity.
Qed.

Lemma fold_collect contacts : forall es ps ids,
  fold_left collect contacts (es, ps, ids) =
  (fold_left (add_value email) contacts es,
   fold_left (add_value phoneNumber) contacts ps,
   ids ++ map id (filter is_secondary contacts)).
Proof.
  induction contacts as [|c l IH]; intros es ps ids; simpl.
  - now rewrite app_nil_r.
  - change (fold_left collect l (collect (es, ps, ids) c) = 
            (fold_left (add_value email) l (add_value email es c),
             fold_left (add_value phoneNumber) l (add_value phoneNumber ps c),
             ids ++ map id (if is_secondary c then c :: filter is_secondary l
                            else filter is_secondary l))).
    rewrite collect_eq. cbn [fst snd]. rewrite IH. f_equal.
    destruct (is_secondary c); simpl; rewrite <- app_assoc; reflexivity.
Qed.

Lemma fold_add_value f contacts : forall acc,
  fold_left (add_value f) contacts acc =
  fold_left (fun a s => set_add_str s a) (truthy_values f contacts) acc.
Proof.
  induction contacts as [|c l IH]; intros acc; [reflexivity|].
  cbn [fold_left truthy_values]. rewrite IH. unfold add_value.
  destruct (f c) as [s|]; [destruct (truthy (Some s))|]; reflexivity.
Qed.

Lemma set_add_In s acc : In s acc -> set_add_str s acc = acc.
Proof.
  unfold set_add_str. induction acc as [|a acc IH]; simpl; [tauto|].
  intros H. destruct (string_dec s a); auto.
  f_equal. apply IH. destruct H; congruence.
Qed.

Lemma set_add_notin s acc : ~ In s acc -> set_add_str s acc = acc ++ [s].
Proof.
  unfold set_add_str. induction acc as [|a acc IH]; simpl; auto.
  intros H. destruct (string_dec s a); [exfalso; apply H; left; congruence|].
  f_equal. apply IH. tauto.
Qed.

Lemma unseen_snoc acc x l :
  filter (unseen (acc ++ [x])) l = filter (unseen acc) (remove string_dec x l).
Proof.
  induction l as [|y l IH]; simpl; auto.
  destruct (string_dec x y) as [<-|Hne].
  - rewrite <- IH.
    replace (unseen (acc ++ [x]) x) with false; auto.
    symmetry. apply negb_false_iff, set_has_In, in_or_app. right. now left.
  - simpl. rewrite IH.
    replace (unseen (acc ++ [x]) y) with (unseen acc y); auto.
    unfold unseen, set_has. rewrite existsb_app. simpl.
    replace (y =? x)%string with false
      by (symmetry; apply String.eqb_neq; congruence).
    now rewrite !orb_false_r.
Qed.

Lemma unseen_remove acc x l :
  In x acc ->
  filter (unseen acc) (remove string_dec x l) = filter (unseen acc) l.
Proof.
  intros Hx. induction l as [|y l IH]; simpl; auto.
  destruct (string_dec x y) as [<-|Hne]; simpl; rewrite IH; auto.
  replace (unseen acc x) with false; auto.
  symmetry. now apply negb_false_iff, set_has_In.
Qed.

Lemma fold_set_add xs : forall acc,
  fold_left (fun a s => set_add_str s a) xs acc =
  acc ++ filter (unseen acc) (first_occurrences xs).
Proof.
  induction xs as [|x xs IH]; intros acc; simpl.
  - now rewrite app_nil_r.
  - rewrite IH. destruct (set_has x acc) eqn:E;
      replace (unseen acc x) with (negb (set_has x acc)) by reflexivity;
      rewrite E; simpl.
    + apply set_has_In in E. rewrite (set_add_In x acc E).
      now rewrite unseen_remove.
    + assert (~ In x acc) as Hn by (rewrite <- set_has_In; congruence).
      rewrite (set_add_notin x acc Hn), <- app_assoc. simpl.
      now rewrite unseen_snoc.
Qed.

Lemma unseen_nil l : filter (unseen []) l = l.
Proof. induction l; simpl; congruence. Qed.

Lemma first_occurrences_In s xs : In s (first_occurrences xs) <-> In s xs.
Proof.
  induction xs as [|x xs IH]; simpl; [tauto|].
  split.
  - intros [E | H]; auto. apply in_remove in H as [H _]. right. now apply IH.
  - intros [E | H]; auto. destruct (string_dec x s); auto.
    right. apply in_in_remove; [congruence | now apply IH].
Qed.

Lemma NoDup_remove_str x l : NoDup l -> NoDup (remove string_dec x l).
Proof.
  induction 1 as [|y l Hn Hd IH]; simpl; [constructor|].
  destruct (string_dec x y); auto. constructor; auto.
  intros H. apply in_remove in H. tauto.
Qed.

Lemma first_occurrences_NoDup xs : NoDup (first_occurrences xs).
Proof.
  induction xs as [|x xs IH]; simpl; constructor.
  - apply remove_In.
  - now apply NoDup_remove_str.
Qed.

(** What the view builder returns on a non-empty sequence. *)
Lemma build_cons first rest :
  buildConsolidatedResponse (first :: rest) =
  inr (mkConsolidated
         (id (match find is_primary (first :: rest) with
              | Some c => c | None => first end))
         (first_occurrences (truthy_values email (first :: rest)))
         (first_occurrences (truthy_values phoneNumber (first :: rest)))
         (map id (filter is_secondary (first :: rest)))).
Proof.
  unfold buildConsolidatedResponse.
  rewrite fold_collect, !fold_add_value, !fold_set_add, !unseen_nil.
  reflexivity.
Qed.

Lemma build_error contacts e :
  buildConsolidatedResponse contacts = inl e -> contacts = [] /\ e = EmptyCluster.
Proof.
  destruct contacts as [|c l].
  - simpl. intros [= <-]. auto.
  - rewrite build_cons. discriminate.
Qed.

Lemma truthy_values_head f c l s :
  f c = Some s -> truthy (Some s) = true ->
  truthy_values f (c :: l) = s :: truthy_values f l.
Proof. intros E T. cbn [truthy_values]. now rewrite E, T. Qed.

Lemma is_secondary_negb c : is_secondary c = negb (is_primary c).
Proof. unfold is_secondary, is_primary. now destruct (linkPrecedence c). Qed.

(** ** Running programs *)

Lemma run_bind {A B} (p : Prog A) (f : A -> Prog B) st :
  run (bind p f) st =
  let '(c1, st1, r) := run p st in
  match r with
  | inl e => (c1, st1, inl e)
  | inr a => let '(c2, st2, r2) := run (f a) st1 in (c1 ++ c2, st2, r2)
  end.
Proof.
  revert st. induction p as [a|e|c k IH]; intros st; simpl.
  - now destruct (run (f a) st) as [[? ?] ?].
  - reflexivity.
  - destruct (exec c st) as [[e|r] st']; [reflexivity|].
    rewrite IH. destruct (run (k r) st') as [[c1 st1] [e|a]]; [reflexivity|].
    now destruct (run (f a) st1) as [[? ?] ?].
Qed.


Lemma with_rows_same st : with_rows st (rows st) = st.
Proof. now destruct st. Qed.

Lemma find_id_In cid rs :
  In cid (map id rs) -> exists r, find (fun r => id r =? cid) rs = Some r.
Proof.
  induction rs as [|r rs IH]; simpl; [tauto|].
  intros [E | H].
  - exists r. subst. now rewrite Z.eqb_refl.
  - destruct (id r =? cid); eauto.
Qed.

Lemma id_demote_where cid lid c : id (demote_where cid lid c) = id c.
Proof. unfold demote_where. now destruct (id c =? cid). Qed.

Lemma map_id_demote_where cid lid rs :
  map id (map (demote_where cid lid) rs) = map id rs.
Proof.
  rewrite map_map. apply map_ext. intros. apply id_demote_where.
Qed.

Lemma demote_ids_cons cid ids lid c :
  demote_ids ids lid (demote_where cid lid c) = demote_ids (cid :: ids) lid c.
Proof.
  unfold demote_ids, demote_where. simpl.
  destruct (id c =? cid) eqn:E; simpl.
  - now destruct (existsb (Z.eqb (id c)) ids).
  - reflexivity.
Qed.

Lemma demote_ids_nil lid rs : map (demote_ids [] lid) rs = rs.
Proof. unfold demote_ids. simpl. apply map_id. Qed.

Lemma run_demotions P rest : forall st,
  (forall c, In c rest -> In (id c) (map id (rows st))) ->
  run (for_each rest (demotion (Some P))) st =
  (map (fun c => UpdateToSecondaryContact (id c) (id P)) rest,
   with_rows st (map (demote_ids (map id rest) (id P)) (rows st)),
   inr tt).
Proof.
  induction rest as [|c rest IH]; intros st Hin.
  - simpl. now rewrite demote_ids_nil, with_rows_same.
  - destruct (find_id_In (id c) (rows st)) as [r Hr]; [apply Hin; now left|].
    cbn [for_each]. rewrite run_bind.
    unfold demotion at 1. simpl. rewrite Hr. simpl.
    rewrite IH.
    + simpl. unfold with_rows. simpl. f_equal. f_equal. f_equal.
      rewrite map_map. apply map_ext. intros. apply demote_ids_cons.
    + intros d Hd. simpl. rewrite map_id_demote_where. apply Hin. now right.
Qed.

(** The validation of a request with a field present lets it through. *)
Ltac accept_request e p :=
  replace (negb (truthy e) && negb (truthy p)) with false
    by (destruct (truthy e), (truthy p); simpl in *; congruence).

Lemma identify_invalid e p st :
  truthy e = false -> truthy p = false ->
  identify (mkRequest e p) st = ([], st, inl InvalidRequest).
Proof.
  intros He Hp. unfold identify, identifyContact. simpl. now rewrite He, Hp.
Qed.

Lemma length_zero {A} (l : list A) :
  (Z.of_nat (List.length l) =? 0) = true <-> l = [].
Proof.
  destruct l; simpl; split; try congruence; auto.
Qed.

Lemma identify_fresh e p st :
  truthy e || truthy p = true ->
  find_by e p st = [] ->
  identify (mkRequest e p) st =
  ([FindContactsByEmailOrPhone e p; CreatePrimaryContact (or_null e) (or_null p)],
   insert_row st (new_row st (or_null e) (or_null p) None primary),
   inr (mkConsolidated (nextId st) (singleton_value e) (singleton_value p) [])).
Proof.
  intros Hv Hm. unfold identify, identifyContact.
  cbn [req_email req_phoneNumber].
  accept_request e p.
  simpl. rewrite Hm. reflexivity.
Qed.

Lemma matched_in_rows e p st c : In c (find_by e p st) -> In c (rows st).
Proof.
  unfold find_by. rewrite sort_by_createdAt_In, filter_In. tauto.
Qed.

Lemma primaries_in_rows e p st c :
  In c (sort_by_createdAt (filter is_primary (find_by e p st))) -> In c (rows st).
Proof.
  rewrite sort_by_createdAt_In, filter_In. intros [H _].
  eauto using matched_in_rows.
Qed.

Lemma run_lift {A} (r : Error + A) st : run (lift r) st = ([], st, r).
Proof. now destruct r. Qed.

Lemma identify_matched e p st P rest :
  truthy e || truthy p = true ->
  sort_by_createdAt (filter is_primary (find_by e p st)) = P :: rest ->
  identify (mkRequest e p) st =
  (merge_calls e p P rest st, merged_store e p P rest st,
   buildConsolidatedResponse (find_linked (id P) (merged_store e p P rest st))).
Proof.
  intros Hv HP. unfold identify, identifyContact.
  cbn [req_email req_phoneNumber].
  accept_request e p.
  rewrite run_bind. cbn [findContactsByEmailOrPhone run exec].
  destruct (Z.of_nat (List.length (find_by e p st)) =? 0) eqn:E.
  { apply length_zero in E. rewrite E in HP. discriminate. }
  rewrite HP. cbn [hd_error tl].
  fold (new_information e p (find_by e p st)).
  assert (Hrows : forall c, In c rest -> In (id c) (map id (rows st))).
  { intros c Hc. apply in_map. apply (primaries_in_rows e p).
    rewrite HP. now right. }
  unfold merge_calls, merged_store.
  set (st1 := with_rows st (map (demote_ids (map id rest) (id P)) (rows st))).
  assert (Hloop :
    run (if 1 <? Z.of_nat (List.length (P :: rest))
         then for_each rest (demotion (Some P)) else Ret tt) st =
    (map (fun c => UpdateToSecondaryContact (id c) (id P)) rest, st1, inr tt)).
  { destruct rest as [|c rest'].
    - simpl. unfold st1. simpl. now rewrite demote_ids_nil, with_rows_same.
    - replace (1 <? Z.of_nat (List.length (P :: c :: rest'))) with true
        by (symmetry; apply Z.ltb_lt; simpl List.length; lia).
      now apply run_demotions. }
  rewrite run_bind, Hloop. rewrite run_bind.
  destruct (new_information e p (find_by e p st)).
  - simpl. rewrite run_lift. reflexivity.
  - simpl. rewrite run_lift. reflexivity.
Qed.

Lemma identify_no_primary e p st :
  truthy e || truthy p = true ->
  find_by e p st <> [] ->
  filter is_primary (find_by e p st) = [] ->
  identify (mkRequest e p) st =
  ([FindContactsByEmailOrPhone e p], st, inl TypeErrorUndefined).
Proof.
  intros Hv Hne Hnp. unfold identify, identifyContact.
  cbn [req_email req_phoneNumber].
  accept_request e p.
  rewrite run_bind. cbn [findContactsByEmailOrPhone run exec].
  destruct (Z.of_nat (List.length (find_by e p st)) =? 0) eqn:E.
  { apply length_zero in E. contradiction. }
  rewrite Hnp.
  cbn [sort_by_createdAt rev fold_right hd_error tl List.length Z.of_nat].
  cbn [Z.ltb Z.compare].
  destruct (is_new e (emails_of (find_by e p st))
            || is_new p (phones_of (find_by e p st))); reflexivity.
Qed.

(** Every invocation falls in one of four cases. *)
Lemma identify_cases e p st :
  (truthy e = false /\ truthy p = false) \/
  (truthy e || truthy p = true /\ find_by e p st = []) \/
  (truthy e || truthy p = true /\ find_by e p st <> [] /\
   filter is_primary (find_by e p st) = []) \/
  (truthy e || truthy p = true /\
   exists P rest,
     sort_by_createdAt (filter is_primary (find_by e p st)) = P :: rest).
Proof.
  destruct (truthy e) eqn:He, (truthy p) eqn:Hp; simpl; auto;
    (destruct (find_by e p st) as [|c M] eqn:HM; [auto|]);
    right; right;
    (destruct (sort_by_createdAt (filter is_primary (c :: M)))
       as [|P rest] eqn:HP;
     [ left; repeat split; auto; [congruence | now apply sort_by_createdAt_nil]
     | right; split; eauto ]).
Qed.

(** *** Facts about filters and demotions *)

Lemma filter_none {A} (f : A -> bool) l :
  (forall x, In x l -> f x = false) -> filter f l = [].
Proof.
  induction l as [|x l IH]; simpl; intros H; auto.
  rewrite (H x) by auto. apply IH. auto.
Qed.

Lemma NoDup_map_filter {A B} (f : A -> B) (g : A -> bool) l :
  NoDup (map f l) -> NoDup (map f (filter g l)).
Proof.
  induction l as [|x l IH]; simpl; intros H; auto.
  inversion H as [|? ? Hn Hd]; subst.
  destruct (g x); simpl; auto.
  constructor; auto.
  intros Hin. apply Hn. apply in_map_iff in Hin as (y & E & Hy).
  apply filter_In in Hy as [Hy _]. rewrite <- E. now apply in_map.
Qed.

Lemma existsb_id_In k ids : existsb (Z.eqb k) ids = true <-> In k ids.
Proof.
  rewrite existsb_exists. split.
  - intros (x & Hx & E). apply Z.eqb_eq in E. now subst.
  - intros H. exists k. split; auto. apply Z.eqb_refl.
Qed.

Lemma matches_demote_ids e p D lid c :
  matches e p (demote_ids D lid c) = matches e p c.
Proof. unfold demote_ids. now destruct (existsb (Z.eqb (id c)) D). Qed.

Lemma id_demote_ids D lid c : id (demote_ids D lid c) = id c.
Proof. unfold demote_ids. now destruct (existsb (Z.eqb (id c)) D). Qed.

Lemma email_demote_ids D lid c : email (demote_ids D lid c) = email c.
Proof. unfold demote_ids. now destruct (existsb (Z.eqb (id c)) D). Qed.

Lemma phone_demote_ids D lid c : phoneNumber (demote_ids D lid c) = phoneNumber c.
Proof. unfold demote_ids. now destruct (existsb (Z.eqb (id c)) D). Qed.

Create Rewrite HintDb demote.
#[local] Hint Rewrite matches_demote_ids id_demote_ids email_demote_ids
  phone_demote_ids : demote.

(** The primaries that survive a round of demotions are the primaries whose
    id was not demoted, and they are unchanged. *)
Lemma filter_primary_demoted (q : Contact -> bool) D lid rs :
  (forall c, q (demote_ids D lid c) = q c) ->
  filter (fun c => q c && is_primary c) (map (demote_ids D lid) rs) =
  filter (fun c => negb (existsb (Z.eqb (id c)) D))
         (filter (fun c => q c && is_primary c) rs).
Proof.
  intros Hq. induction rs as [|c rs IH]; simpl; auto.
  rewrite Hq. unfold demote_ids at 1 2.
  destruct (existsb (Z.eqb (id c)) D) eqn:E.
  - cbn [is_primary demote linkPrecedence]. rewrite andb_false_r.
    destruct (q c && is_primary c); simpl; rewrite ?E; auto.
  - destruct (q c && is_primary c); simpl; rewrite ?E; simpl; now rewrite IH.
Qed.

Lemma primaries_perm e p st :
  Permutation (sort_by_createdAt (filter is_primary (find_by e p st)))
              (filter (fun c => matches e p c && is_primary c) (rows st)).
Proof.
  eapply perm_trans; [apply sort_by_createdAt_perm|].
  rewrite <- filter_filter. apply filter_perm. apply sort_by_createdAt_perm.
Qed.

Lemma survivors P rest :
  NoDup (map id (P :: rest)) ->
  filter (fun c => negb (existsb (Z.eqb (id c)) (map id rest))) (P :: rest) = [P].
Proof.
  intros Hnd. inversion Hnd as [|? ? Hn _]; subst. simpl.
  destruct (existsb (Z.eqb (id P)) (map id rest)) eqn:E.
  - apply existsb_id_In in E. contradiction.
  - simpl. f_equal. apply filter_none. intros c Hc.
    apply negb_false_iff, existsb_id_In. now apply in_map.
Qed.


(** *** Novelty of the incoming values *)

Lemma is_new_false v f M :
  is_new v (truthy_values f M) = false <->
  truthy v = false \/ exists c, In c M /\ f c = v.
Proof.
  unfold is_new. destruct v as [s|]; [|simpl; tauto].
  destruct (truthy (Some s)) eqn:T; simpl andb.
  - rewrite negb_false_iff, set_has_In, truthy_values_In. split.
    + intros (c & Hc & E & _). eauto.
    + intros [H | (c & Hc & E)]; [discriminate | eauto].
  - tauto.
Qed.

Lemma is_new_true v f M :
  is_new v (truthy_values f M) = true ->
  truthy v = true /\ forall c, In c M -> f c <> v.
Proof.
  intros H. destruct (truthy v) eqn:T.
  - split; auto. intros c Hc E.
    assert (is_new v (truthy_values f M) = false) by (apply is_new_false; eauto).
    congruence.
  - assert (is_new v (truthy_values f M) = false) by (apply is_new_false; auto).
    congruence.
Qed.

Lemma find_by_In e p st c :
  In c (find_by e p st) <-> In c (rows st) /\ matches e p c = true.
Proof. unfold find_by. now rewrite sort_by_createdAt_In, filter_In. Qed.

Lemma or_null_truthy v : truthy v = true -> or_null v = v.
Proof. unfold or_null. now intros ->. Qed.

Lemma opt_string_eqb_refl v : opt_string_eqb v v = true.
Proof. now apply opt_string_eqb_eq. Qed.

Lemma matches_email e p c :
  live c = true -> truthy e = true -> email c = e -> matches e p c = true.
Proof.
  intros Hl He E. unfold matches. now rewrite Hl, He, E, opt_string_eqb_refl.
Qed.

Lemma matches_phone e p c :
  live c = true -> truthy p = true -> phoneNumber c = p -> matches e p c = true.
Proof.
  intros Hl Hp E. unfold matches.
  rewrite Hl, Hp, E, opt_string_eqb_refl. simpl. apply orb_true_r.
Qed.

(** The new row of a merge is matched by the request that created it. *)
Lemma new_row_matches e p st l lp :
  truthy e || truthy p = true ->
  matches e p (new_row st (or_null e) (or_null p) l lp) = true.
Proof.
  intros Hv. destruct (truthy e) eqn:He.
  - apply matches_email; auto. simpl. now apply or_null_truthy.
  - simpl in Hv. apply matches_phone; auto. simpl. now apply or_null_truthy.
Qed.



(** *** The store after a merge *)

Section Merge.

Variables (e p : option string) (st : Store).
Variables (P : Contact) (rest : list Contact).

Hypothesis valid : truthy e || truthy p = true.
Hypothesis primaries :
  sort_by_createdAt (filter is_primary (find_by e p st)) = P :: rest.

Lemma merged_rows :
  rows (merged_store e p P rest st) =
  map (demote_ids (map id rest) (id P)) (rows st)
  ++ (if new_information e p (find_by e p st)
      then [new_row st (or_null e) (or_null p) (Some (id P)) secondary]
      else []).
Proof.
  unfold merged_store. destruct (new_information e p (find_by e p st)).
  - reflexivity.
  - simpl. now rewrite app_nil_r.
Qed.

Lemma oldest_matched : In P (rows st) /\ matches e p P = true.
Proof.
  apply find_by_In.
  assert (In P (P :: rest)) as H by now left.
  rewrite <- primaries in H. apply sort_by_createdAt_In, filter_In in H. tauto.
Qed.

(** The matched primaries are distinct rows. *)
Lemma primaries_distinct : wf st -> NoDup (map id (P :: rest)).
Proof.
  intros Hwf. pose proof (primaries_perm e p st) as Hp.
  rewrite primaries in Hp.
  eapply Permutation_NoDup.
  - apply Permutation_map, Permutation_sym, Hp.
  - apply NoDup_map_filter, Hwf.
Qed.

(** After the mutations of a merge the surviving primary is the only
    primary that the request matches. *)
Lemma primaries_after_merge :
  wf st ->
  sort_by_createdAt
    (filter is_primary (find_by e p (merged_store e p P rest st))) = [P].
Proof.
  intros Hwf. apply perm_singleton.
  eapply perm_trans; [apply primaries_perm|].
  assert (Hrows :
    filter (fun c => matches e p c && is_primary c)
           (rows (merged_store e p P rest st)) =
    filter (fun c => matches e p c && is_primary c)
           (map (demote_ids (map id rest) (id P)) (rows st))).
  { rewrite merged_rows.
    destruct (new_information e p (find_by e p st)); [|now rewrite app_nil_r].
    rewrite filter_app.
    cbn [filter new_row is_primary linkPrecedence]. rewrite andb_false_r.
    apply app_nil_r. }
  rewrite Hrows, filter_primary_demoted by (intros; apply matches_demote_ids).
  pose proof (primaries_perm e p st) as Hp. rewrite primaries in Hp.
  rewrite <- (survivors P rest) by now apply primaries_distinct.
  apply filter_perm. now apply Permutation_sym.
Qed.

(** Each incoming value is held by a matched contact afterwards. *)
Lemma no_news_after_merge :
  new_information e p (find_by e p (merged_store e p P rest st)) = false.
Proof.
  unfold new_information at 1.
  set (N := new_row st (or_null e) (or_null p) (Some (id P)) secondary).
  assert (Hkeep : forall c, In c (find_by e p st) ->
            In (demote_ids (map id rest) (id P) c)
               (find_by e p (merged_store e p P rest st))).
  { intros c Hc. apply find_by_In in Hc as [Hc Hm]. apply find_by_In. split.
    - rewrite merged_rows. apply in_or_app. left. now apply in_map.
    - now autorewrite with demote. }
  assert (Hnew : new_information e p (find_by e p st) = true ->
            In N (find_by e p (merged_store e p P rest st))).
  { intros Hn. apply find_by_In. split.
    - rewrite merged_rows, Hn. apply in_or_app. right. now left.
    - now apply new_row_matches. }
  apply orb_false_iff. split; apply is_new_false.
  - destruct (truthy e) eqn:He; [right | now left].
    destruct (is_new e (emails_of (find_by e p st))) eqn:En.
    + exists N. split.
      * apply Hnew. unfold new_information. now rewrite En.
      * simpl. now apply or_null_truthy.
    + apply is_new_false in En as [En | (c & Hc & E)]; [congruence|].
      exists (demote_ids (map id rest) (id P) c). split; auto.
      now autorewrite with demote.
  - destruct (truthy p) eqn:Hp; [right | now left].
    destruct (is_new p (phones_of (find_by e p st))) eqn:En.
    + exists N. split.
      * apply Hnew. unfold new_information. rewrite En. apply orb_true_r.
      * simpl. now apply or_null_truthy.
    + apply is_new_false in En as [En | (c & Hc & E)]; [congruence|].
      exists (demote_ids (map id rest) (id P) c). split; auto.
      now autorewrite with demote.
Qed.

(** The cluster that the merge reads back holds its surviving primary. *)
Lemma cluster_nonempty : find_linked (id P) (merged_store e p P rest st) <> [].
Proof.
  intros Hnil. destruct oldest_matched as [Hin Hm].
  assert (In (demote_ids (map id rest) (id P) P)
             (find_linked (id P) (merged_store e p P rest st))) as H.
  { unfold find_linked. apply sort_by_createdAt_In, filter_In. split.
    - rewrite merged_rows. apply in_or_app. left. now apply in_map.
    - unfold in_cluster. rewrite id_demote_ids, Z.eqb_refl. simpl.
      unfold matches in Hm. apply andb_true_iff in Hm as [Hl _].
      unfold demote_ids. now destruct (existsb (Z.eqb (id P)) (map id rest)). }
  now rewrite Hnil in H.
Qed.

(** The earliest-created matched primary survives as it is, and every
    other matched primary becomes a secondary linked to it. *)
Lemma oldest_primary_survives :
  wf st ->
  (forall c, In c (find_by e p st) -> is_primary c = true ->
             createdAt P <= createdAt c) /\
  In P (rows (merged_store e p P rest st)) /\
  (forall c, In c rest ->
             In (demote (id P) c) (rows (merged_store e p P rest st))).
Proof.
  intros Hwf. pose proof (primaries_distinct Hwf) as Hnd.
  inversion Hnd as [|? ? HnP _]; subst. repeat split.
  - intros c Hc Hp.
    assert (In c (P :: rest)) as [<- | Hr].
    { rewrite <- primaries. apply sort_by_createdAt_In, filter_In. auto. }
    + lia.
    + pose proof (sort_by_createdAt_sorted (filter is_primary (find_by e p st)))
        as Hs.
      rewrite primaries in Hs. inversion Hs as [|? ? _ Hall]; subst.
      rewrite Forall_forall in Hall. now apply Hall.
  - rewrite merged_rows. apply in_or_app. left.
    replace P with (demote_ids (map id rest) (id P) P) at 1.
    + apply in_map, oldest_matched.
    + unfold demote_ids.
      destruct (existsb (Z.eqb (id P)) (map id rest)) eqn:E; [|reflexivity].
      apply existsb_id_In in E. contradiction.
  - intros c Hc. rewrite merged_rows. apply in_or_app. left.
    replace (demote (id P) c) with (demote_ids (map id rest) (id P) c).
    + apply in_map. apply (primaries_in_rows e p). rewrite primaries. now right.
    + unfold demote_ids.
      replace (existsb (Z.eqb (id c)) (map id rest)) with true; [reflexivity|].
      symmetry. apply existsb_id_In. now apply in_map.
Qed.

End Merge.

(** *** A second invocation with the same request *)

Lemma merged_store_quiet e p P st :
  new_information e p (find_by e p st) = false ->
  merged_store e p P [] st = st.
Proof.
  intros H. unfold merged_store. rewrite H. simpl.
  now rewrite demote_ids_nil, with_rows_same.
Qed.

Lemma identify_again_matched e p st P rest :
  wf st ->
  truthy e || truthy p = true ->
  sort_by_createdAt (filter is_primary (find_by e p st)) = P :: rest ->
  identify (mkRequest e p) (merged_store e p P rest st) =
  ([FindContactsByEmailOrPhone e p; FindLinkedContacts (id P)],
   merged_store e p P rest st,
   buildConsolidatedResponse (find_linked (id P) (merged_store e p P rest st))).
Proof.
  intros Hwf Hv HP.
  pose proof (primaries_after_merge e p st P rest HP Hwf) as HP2.
  pose proof (no_news_after_merge e p st P rest Hv) as Hn.
  rewrite (identify_matched e p _ P [] Hv HP2).
  unfold merge_calls. rewrite Hn, merged_store_quiet by exact Hn. reflexivity.
Qed.

Lemma find_by_insert_fresh e p st N :
  find_by e p st = [] -> matches e p N = true ->
  find_by e p (insert_row st N) = [N].
Proof.
  intros Hm HN. unfold find_by in *. apply sort_by_createdAt_nil in Hm.
  cbn [insert_row rows]. rewrite filter_app, Hm. simpl. now rewrite HN.
Qed.

Lemma find_linked_insert_fresh st N :
  wf st -> id N = nextId st -> live N = true ->
  find_linked (nextId st) (insert_row st N) = [N].
Proof.
  intros Hwf Hid Hl. unfold find_linked. cbn [insert_row rows].
  rewrite filter_app, filter_none.
  - simpl. unfold in_cluster. now rewrite Hid, Z.eqb_refl, Hl.
  - intros c Hc. unfold in_cluster.
    pose proof (wf_fresh st Hwf c Hc) as Hlt.
    replace (id c =? nextId st) with false by (symmetry; apply Z.eqb_neq; lia).
    destruct (linkedId c) as [k|] eqn:Hk; simpl; auto.
    pose proof (wf_links st Hwf c k Hc Hk).
    replace (k =? nextId st) with false by (symmetry; apply Z.eqb_neq; lia).
    reflexivity.
Qed.

Lemma build_single_primary c :
  is_primary c = true ->
  buildConsolidatedResponse [c] =
  inr (mkConsolidated (id c) (singleton_value (email c))
                      (singleton_value (phoneNumber c)) []).
Proof.
  intros Hp. unfold buildConsolidatedResponse. cbn [find]. rewrite Hp.
  cbn [fold_left collect]. unfold is_secondary, is_primary in *.
  destruct (linkPrecedence c); [|discriminate].
  unfold singleton_value, add_value.
  destruct (email c) as [s|], (phoneNumber c) as [t|];
    repeat match goal with |- context [truthy ?v] => destruct (truthy v) end;
    reflexivity.
Qed.

Lemma singleton_or_null v : singleton_value (or_null v) = singleton_value v.
Proof.
  unfold or_null, singleton_value. destruct v as [s|]; auto.
  destruct (truthy (Some s)) eqn:T; [now rewrite T | reflexivity].
Qed.

Lemma no_news_single e p N :
  email N = or_null e -> phoneNumber N = or_null p ->
  new_information e p [N] = false.
Proof.
  intros He Hp. unfold new_information, emails_of, phones_of.
  apply orb_false_iff. split; apply is_new_false.
  - destruct (truthy e) eqn:T; [right | now left].
    exists N. split; [now left|]. now rewrite He, or_null_truthy.
  - destruct (truthy p) eqn:T; [right | now left].
    exists N. split; [now left|]. now rewrite Hp, or_null_truthy.
Qed.

Lemma identify_again_fresh e p st :
  wf st ->
  truthy e || truthy p = true ->
  find_by e p st = [] ->
  let N := new_row st (or_null e) (or_null p) None primary in
  identify (mkRequest e p) (insert_row st N) =
  ([FindContactsByEmailOrPhone e p; FindLinkedContacts (nextId st)],
   insert_row st N,
   inr (mkConsolidated (nextId st) (singleton_value e) (singleton_value p) [])).
Proof.
  intros Hwf Hv Hm N.
  assert (HM : find_by e p (insert_row st N) = [N])
    by (apply find_by_insert_fresh; [assumption | now apply new_row_matches]).
  assert (Hn : new_information e p (find_by e p (insert_row st N)) = false)
    by (rewrite HM; now apply no_news_single).
  rewrite (identify_matched e p _ N []); [|assumption | now rewrite HM].
  unfold merge_calls. rewrite Hn, merged_store_quiet by exact Hn.
  change (id N) with (nextId st).
  rewrite find_linked_insert_fresh by (auto; reflexivity).
  rewrite build_single_primary by reflexivity.
  cbn [N new_row id email phoneNumber]. now rewrite !singleton_or_null.
Qed.

(** *** Well-formedness is preserved *)

Lemma wf_empty : wf empty_store.
Proof. split; simpl; [constructor | tauto | tauto]. Qed.

Lemma wf_insert st e p l lp :
  wf st ->
  (forall k, l = Some k -> k < nextId st) ->
  wf (insert_row st (new_row st e p l lp)).
Proof.
  intros [Hk Hf Hl] Hlink. split; cbn [insert_row rows nextId].
  - rewrite map_app. simpl.
    apply NoDup_app; auto.
    + repeat constructor. simpl. tauto.
    + intros k Hin [<- | []]. apply in_map_iff in Hin as (c & E & Hc).
      apply Hf in Hc. lia.
  - intros c [Hc | [<- | []]]%in_app_or; [apply Hf in Hc; lia | simpl; lia].
  - intros c k [Hc | [<- | []]]%in_app_or E.
    + specialize (Hl c k Hc E). lia.
    + simpl in E. specialize (Hlink k E). lia.
Qed.

Lemma wf_demote st D lid :
  wf st -> lid < nextId st ->
  wf (with_rows st (map (demote_ids D lid) (rows st))).
Proof.
  intros [Hk Hf Hl] Hlt. split; cbn [with_rows rows nextId].
  - rewrite map_map. erewrite map_ext; [exact Hk|]. intros. apply id_demote_ids.
  - intros c (d & <- & Hd)%in_map_iff. rewrite id_demote_ids. auto.
  - intros c k (d & <- & Hd)%in_map_iff. unfold demote_ids.
    destruct (existsb (Z.eqb (id d)) D); simpl.
    + intros [= <-]. exact Hlt.
    + eauto.
Qed.

Lemma wf_identify e p st :
  wf st -> wf (final_store (identify (mkRequest e p) st)).
Proof.
  intros Hwf.
  destruct (identify_cases e p st)
    as [[He Hp] | [[Hv Hm] | [(Hv & Hne & Hnp) | (Hv & P & rest & HP)]]].
  - now rewrite identify_invalid.
  - rewrite identify_fresh by assumption.
    apply wf_insert; [assumption | discriminate].
  - now rewrite identify_no_primary.
  - rewrite (identify_matched e p st P rest Hv HP). cbn [final_store fst snd].
    assert (HPlt : id P < nextId st).
    { apply Hwf. apply (primaries_in_rows e p). rewrite HP. now left. }
    unfold merged_store.
    destruct (new_information e p (find_by e p st)).
    + apply (wf_insert (with_rows st _)).
      * now apply wf_demote.
      * intros k [= <-]. exact HPlt.
    + now apply wf_demote.
Qed.

Lemma reachable_wf st : reachable st -> wf st.
Proof.
  induction 1 as [|st [e p] view _ IH _].
  - apply wf_empty.
  - now apply wf_identify.
Qed.

(** ** Turn-taking and the sequential semantics *)

Lemma steps_run {A} (p : Prog A) : forall st,
  steps (List.length (store_calls (run p st))) p st =
  (lift (result (run p st)), final_store (run p st)).
Proof.
  induction p as [a|e|c k IH]; intros st; try reflexivity.
  cbn [run]. destruct (exec c st) as [[e|r] st'] eqn:E.
  - cbn. now rewrite E.
  - specialize (IH r st').
    destruct (run (k r) st') as [[calls st''] res].
    cbn in *. now rewrite E.
Qed.

Lemma interleave_app {A} s1 : forall s2 (a b : Prog A) st,
  interleave (s1 ++ s2) a b st =
  let '(a', b', st') := interleave s1 a b st in interleave s2 a' b' st'.
Proof.
  induction s1 as [|[|] s1 IH]; intros s2 a b st; cbn [interleave app].
  - reflexivity.
  - destruct (step a st). apply IH.
  - destruct (step b st). apply IH.
Qed.

Lemma interleave_A {A} n : forall (a b : Prog A) st,
  interleave (repeat callerA n) a b st =
  (fst (steps n a st), b, snd (steps n a st)).
Proof.
  induction n as [|n IH]; intros a b st; cbn [repeat interleave steps].
  - reflexivity.
  - destruct (step a st). apply IH.
Qed.

Lemma interleave_B {A} n : forall (a b : Prog A) st,
  interleave (repeat callerB n) a b st =
  (a, fst (steps n b st), snd (steps n b st)).
Proof.
  induction n as [|n IH]; intros a b st; cbn [repeat interleave steps].
  - reflexivity.
  - destruct (step b st). apply IH.
Qed.

(** One invocation after the other: the second starts on the store the
    first one left. *)
Lemma interleave_serial {A} (a b : Prog A) st :
  interleave
    (repeat callerA (List.length (store_calls (run a st)))
     ++ repeat callerB
          (List.length (store_calls (run b (final_store (run a st))))))
    a b st =
  (lift (result (run a st)),
   lift (result (run b (final_store (run a st)))),
   final_store (run b (final_store (run a st)))).
Proof.
  rewrite interleave_app, interleave_A, steps_run. cbn [fst snd].
  now rewrite interleave_B, steps_run.
Qed.

(** ** Outcomes of an invocation *)

Lemma after_reachable requests : forall st,
  reachable st -> all_succeed requests st = true ->
  reachable (after requests st).
Proof.
  induction requests as [|r rs IH]; intros st Hr Hs; [exact Hr|].
  cbn [all_succeed] in Hs. cbn [after fold_left].
  destruct (result (identify r st)) as [e|v] eqn:E; [discriminate|].
  apply IH; [|exact Hs]. now apply reach_identify with (view := v).
Qed.


(** A valid request either gets its view or meets a match without a
    primary, where reading [oldestPrimary.id] throws. *)
Lemma identify_outcome e p st :
  truthy e || truthy p = true ->
  (exists view, result (identify (mkRequest e p) st) = inr view) \/
  (result (identify (mkRequest e p) st) = inl TypeErrorUndefined /\
   find_by e p st <> [] /\ filter is_primary (find_by e p st) = []).
Proof.
  intros Hv.
  destruct (identify_cases e p st)
    as [[He Hp] | [[_ Hm] | [(_ & Hne & Hnp) | (_ & P & rest & HP)]]].
  - rewrite He, Hp in Hv. simpl in Hv. discriminate.
  - left. rewrite identify_fresh by assumption. cbn [result snd]. eauto.
  - right. rewrite identify_no_primary by assumption. cbn [result snd]. auto.
  - left. rewrite (identify_matched e p st P rest Hv HP). cbn [result snd].
    destruct (find_linked (id P) (merged_store e p P rest st)) as [|c l] eqn:E.
    + now apply cluster_nonempty in E.
    + rewrite build_cons. eauto.
Qed.

Lemma value_free_iff f v st :
  value_free f v st = true <->
  forall c, In c (rows st) -> live c = true -> f c <> v.
Proof.
  unfold value_free. rewrite negb_true_iff. split.
  - intros H c Hc Hl E.
    assert (existsb (fun c => live c && opt_string_eqb (f c) v) (rows st) = true).
    { apply existsb_exists. exists c. split; auto.
      rewrite Hl. now apply opt_string_eqb_eq. }
    congruence.
  - intros H.
    destruct (existsb (fun c => live c && opt_string_eqb (f c) v) (rows st))
      eqn:E; auto.
    apply existsb_exists in E as (c & Hc & Hb).
    apply andb_true_iff in Hb as [Hl Hb]. apply opt_string_eqb_eq in Hb.
    now destruct (H c Hc Hl).
Qed.

Lemma unmatched_email_free e p st :
  truthy e = true ->
  (forall c, In c (find_by e p st) -> email c <> e) ->
  value_free email e st = true.
Proof.
  intros He H. apply value_free_iff. intros c Hc Hl E.
  apply (H c); auto. apply find_by_In. split; auto. now apply matches_email.
Qed.

Lemma unmatched_phone_free e p st :
  truthy p = true ->
  (forall c, In c (find_by e p st) -> phoneNumber c <> p) ->
  value_free phoneNumber p st = true.
Proof.
  intros Hp H. apply value_free_iff. intros c Hc Hl E.
  apply (H c); auto. apply find_by_In. split; auto. now apply matches_phone.
Qed.

Lemma truthy_or_null v : truthy (or_null v) = truthy v.
Proof. unfold or_null. now destruct (truthy v) eqn:T. Qed.

(** * The claims *)

(** ** C1: exactly one primary per cluster, links one hop deep *)

(** C1 (the code departs from it).  The claim: in every reachable store every
    secondary's [linkedId] names the primary of its cluster, never another
    secondary.  The store [joined] is reachable, and in it contact 3 is still
    linked to contact 2, which the joining request demoted to a secondary of
    contact 1: the demotion does not re-target the dependents of the
    demoted primary. *)
Theorem merge_breaks_one_hop :
  reachable joined /\
  map (fun c => (id c, linkPrecedence c, linkedId c)) (rows joined) =
    [ (1, primary, None); (2, secondary, Some 1); (3, secondary, Some 2) ] /\
  one_hop joined = false.
Proof.
  split; [|split; reflexivity].
  apply reach_identify
    with (view := mkConsolidated 1 ["a@x.com"; "b@x.com"] ["111"; "222"] [2]).
  - apply after_reachable; [constructor | reflexivity].
  - reflexivity.
Qed.

(** ** C2: demotion re-targets the dependents of the demoted primary *)

(** C2 (the code departs from it).  The claim: when P2 is demoted under P1,
    every contact linked to P2 is re-linked to P1, so a fresh read of P1's
    cluster includes P2's former secondary S.  In [two_clusters] S = 3 is a
    secondary of P2 = 2; the joining request demotes 2 under 1
    ([UpdateToSecondaryContact 2 1] is its only write); afterwards 3 is still
    linked to 2 and the cluster read back for 1 is [1; 2], without 3. *)
Theorem merge_leaves_dependents_behind :
  map (fun c => (id c, linkPrecedence c, linkedId c)) (rows two_clusters) =
    [ (1, primary, None); (2, primary, None); (3, secondary, Some 2) ] /\
  identify joining_request two_clusters =
    ([ FindContactsByEmailOrPhone (Some "a@x.com") (Some "222");
       UpdateToSecondaryContact 2 1;
       FindLinkedContacts 1 ],
     joined,
     inr (mkConsolidated 1 ["a@x.com"; "b@x.com"] ["111"; "222"] [2])) /\
  map (fun c => (id c, linkedId c)) (rows joined) =
    [ (1, None); (2, Some 1); (3, Some 2) ] /\
  map id (find_linked 1 joined) = [1; 2].
Proof. repeat split; reflexivity. Qed.

(** ** C3: two-primary merge, then lookup by the demoted primary's phone *)

(** C3 (the code departs from its second half).  With P1 = 1 (a@x.com,
    created first) and P2 = 2 (phone 222) the joining request demotes 2
    under 1 and returns 1 as [primaryContactId], as claimed.  The claim goes
    on: a later lookup by phone 222 alone resolves to 1.  That lookup matches
    only contact 2, now a secondary; no primary is among the matches and the
    invocation throws on [oldestPrimary.id]. *)
Theorem two_primary_merge_then_phone_lookup :
  reachable two_primaries /\
  map (fun c => (id c, email c, phoneNumber c, linkPrecedence c, createdAt c))
      (rows two_primaries) =
    [ (1, Some "a@x.com", None, primary, 0);
      (2, None, Some "222", primary, 1) ] /\
  identify joining_request two_primaries =
    ([ FindContactsByEmailOrPhone (Some "a@x.com") (Some "222");
       UpdateToSecondaryContact 2 1;
       FindLinkedContacts 1 ],
     two_primaries_merged,
     inr (mkConsolidated 1 ["a@x.com"] ["222"] [2])) /\
  map (fun c => (id c, linkPrecedence c, linkedId c))
      (rows two_primaries_merged) =
    [ (1, primary, None); (2, secondary, Some 1) ] /\
  identify (request None (Some "222")) two_primaries_merged =
    ([ FindContactsByEmailOrPhone None (Some "222") ],
     two_primaries_merged,
     inl TypeErrorUndefined).
Proof.
  split; [|repeat split; reflexivity].
  apply after_reachable; [constructor | reflexivity].
Qed.

(** ** C4: identify fails only with a specified error kind *)

(** C4 (the code departs from it).  The claim: for a request with a field
    present, on a reachable store, [identify] returns a view or one of the
    specified error kinds, and the surviving primary is defined even when
    only secondaries match.  [primary_and_secondary] is reachable; phone 222
    is held there by the secondary 2 alone; the lookup by that phone reads
    [.id] of the undefined [oldestPrimary] and throws a [TypeError]. *)
Theorem identify_throws_on_secondary_only_match :
  reachable primary_and_secondary /\
  map (fun c => (id c, linkPrecedence c))
      (find_by None (Some "222") primary_and_secondary) = [ (2, secondary) ] /\
  identify (request None (Some "222")) primary_and_secondary =
    ([ FindContactsByEmailOrPhone None (Some "222") ],
     primary_and_secondary,
     inl TypeErrorUndefined).
Proof.
  split; [|split; reflexivity].
  apply reach_identify
    with (view := mkConsolidated 1 ["a@x.com"] ["111"; "222"] [2]).
  - apply after_reachable; [constructor | reflexivity].
  - reflexivity.
Qed.

(** ** C5: a repeated invocation changes nothing *)

(** C5.  On a well-formed store (in particular on every reachable store, see
    [reachable_wf]), when an invocation succeeded with view [view] and left
    the store [st'], the same request on [st'] succeeds with the same view,
    leaves [st'] as it is, and its store calls are the two reads: it creates
    no contact and updates none. *)
Theorem identify_idempotent e p st calls st' view :
  wf st ->
  identify (request e p) st = (calls, st', inr view) ->
  exists pid,
    identify (request e p) st' =
    ([FindContactsByEmailOrPhone e p; FindLinkedContacts pid], st', inr view).
Proof.
  unfold request. intros Hwf Hrun.
  destruct (identify_cases e p st)
    as [[He Hp] | [[Hv Hm] | [(Hv & Hne & Hnp) | (Hv & P & rest & HP)]]].
  - rewrite identify_invalid in Hrun by assumption. discriminate.
  - rewrite identify_fresh in Hrun by assumption.
    injection Hrun as _ <- <-. exists (nextId st).
    now apply identify_again_fresh.
  - rewrite identify_no_primary in Hrun by assumption. discriminate.
  - rewrite (identify_matched e p st P rest Hv HP) in Hrun.
    injection Hrun as _ <- Hview. exists (id P).
    rewrite <- Hview. now apply identify_again_matched.
Qed.

Lemma identify_idempotent_witness :
  wf one_primary /\
  exists pid,
    identify joining_request primary_and_secondary =
    ([ FindContactsByEmailOrPhone (Some "a@x.com") (Some "222");
       FindLinkedContacts pid ],
     primary_and_secondary,
     inr (mkConsolidated 1 ["a@x.com"] ["111"; "222"] [2])).
Proof.
  assert (Hwf : wf one_primary).
  { apply reachable_wf, after_reachable; [constructor | reflexivity]. }
  split; [exact Hwf|].
  apply (identify_idempotent (Some "a@x.com") (Some "222") one_primary
           [ FindContactsByEmailOrPhone (Some "a@x.com") (Some "222");
             CreateSecondaryContact (Some "a@x.com") (Some "222") 1;
             FindLinkedContacts 1 ]).
  - exact Hwf.
  - reflexivity.
Defined.

(** ** C6: no created contact duplicates a live contact's email or phone *)

(** C6, as stated, fails: on the reachable store [one_primary], where the
    live contact 1 holds a@x.com, the joining request creates a secondary
    that carries a@x.com again. *)
Lemma secondary_duplicates_existing_email :
  reachable one_primary /\
  In (CreateSecondaryContact (Some "a@x.com") (Some "222") 1)
     (store_calls (identify joining_request one_primary)) /\
  value_free email (Some "a@x.com") one_primary = false /\
  map (fun c => (id c, email c, live c))
      (rows (final_store (identify joining_request one_primary))) =
    [ (1, Some "a@x.com", true); (2, Some "a@x.com", true) ].
Proof.
  split; [|repeat split; try reflexivity].
  - apply after_reachable; [constructor | reflexivity].
  - cbv. tauto.
Qed.

(** C6, amended.  Every contact that an invocation creates carries the full
    incoming email and phone ([x || null]).  A primary is created only when
    no live contact holds the incoming email or phone, so neither of its
    values duplicates a live contact's.  A secondary is created only when
    one of its values, email or phone, is held by no live contact; its other
    value may be held by one. *)
Theorem created_contact_has_novel_value e p st call :
  In call (store_calls (identify (request e p) st)) ->
  match call with
  | CreatePrimaryContact ce cp =>
      ce = or_null e /\ cp = or_null p /\
      (truthy ce = true -> value_free email ce st = true) /\
      (truthy cp = true -> value_free phoneNumber cp st = true)
  | CreateSecondaryContact ce cp _ =>
      ce = or_null e /\ cp = or_null p /\
      ((truthy ce = true /\ value_free email ce st = true) \/
       (truthy cp = true /\ value_free phoneNumber cp st = true))
  | _ => True
  end.
Proof.
  unfold request. intros Hin.
  destruct (identify_cases e p st)
    as [[He Hp] | [[Hv Hm] | [(Hv & Hne & Hnp) | (Hv & P & rest & HP)]]].
  - rewrite identify_invalid in Hin by assumption. destruct Hin.
  - rewrite identify_fresh in Hin by assumption.
    destruct Hin as [<- | [<- | []]]; [exact I|].
    repeat split.
    + rewrite truthy_or_null. intros He. rewrite (or_null_truthy e He).
      apply (unmatched_email_free e p); auto. now rewrite Hm.
    + rewrite truthy_or_null. intros Hp. rewrite (or_null_truthy p Hp).
      apply (unmatched_phone_free e p); auto. now rewrite Hm.
  - rewrite identify_no_primary in Hin by assumption.
    destruct Hin as [<- | []]. exact I.
  - rewrite (identify_matched e p st P rest Hv HP) in Hin.
    cbn [store_calls fst] in Hin. unfold merge_calls in Hin.
    destruct Hin as [<- | Hin]; [exact I|].
    apply in_app_or in Hin as [Hin | Hin].
    { apply in_map_iff in Hin as (c & <- & _). exact I. }
    apply in_app_or in Hin as [Hin | [<- | []]]; [|exact I].
    destruct (new_information e p (find_by e p st)) eqn:Hn; [|destruct Hin].
    destruct Hin as [<- | []]. repeat split.
    unfold new_information in Hn. rewrite !truthy_or_null.
    apply orb_true_iff in Hn as [Hn | Hn]; apply is_new_true in Hn as [Ht Hfree].
    + left. split; auto. rewrite (or_null_truthy e Ht).
      now apply (unmatched_email_free e p).
    + right. split; auto. rewrite (or_null_truthy p Ht).
      now apply (unmatched_phone_free e p).
Qed.

Lemma created_contact_has_novel_value_witness :
  In (CreateSecondaryContact (Some "a@x.com") (Some "222") 1)
     (store_calls (identify joining_request one_primary)) /\
  (Some "a@x.com" = or_null (Some "a@x.com") /\
   Some "222" = or_null (Some "222") /\
   ((truthy (Some "a@x.com") = true /\
     value_free email (Some "a@x.com") one_primary = true) \/
    (truthy (Some "222") = true /\
     value_free phoneNumber (Some "222") one_primary = true))).
Proof.
  assert (H : In (CreateSecondaryContact (Some "a@x.com") (Some "222") 1)
                 (store_calls (identify joining_request one_primary))).
  { cbv. tauto. }
  split; [exact H|].
  exact (created_contact_has_novel_value (Some "a@x.com") (Some "222")
           one_primary _ H).
Defined.

(** ** C7: what the view builder returns

    The builder is private to the service.  Its one caller hands it the
    cluster read back by [findLinkedContacts], in ascending [createdAt]
    order.  On such a sequence, when it starts with its primary, one pass in
    insertion order gives the view of the specification.  That a cluster
    read starts with its primary follows from the invariants of the store,
    further down. *)

Lemma remove_twice x l :
  remove string_dec x (remove string_dec x l) = remove string_dec x l.
Proof. apply notin_remove, remove_In. Qed.

Lemma truthy_values_app f l l' :
  truthy_values f (l ++ l') = truthy_values f l ++ truthy_values f l'.
Proof.
  induction l as [|c l IH]; [reflexivity|]. cbn [app truthy_values].
  destruct (f c) as [s|]; [|exact IH].
  destruct (truthy (Some s)); [|exact IH]. cbn [app]. now rewrite IH.
Qed.

Lemma first_occurrences_own f P rest :
  first_occurrences (truthy_values f [P] ++ truthy_values f (P :: rest)) =
  first_occurrences (truthy_values f (P :: rest)).
Proof.
  change (P :: rest) with ([P] ++ rest). rewrite truthy_values_app.
  cbn [truthy_values]. destruct (f P) as [s|]; [|reflexivity].
  destruct (truthy (Some s)); [|reflexivity].
  cbn [app first_occurrences]. f_equal.
  cbn [remove]. destruct (string_dec s s) as [_|N]; [|congruence].
  apply remove_twice.
Qed.

Lemma StronglySorted_filter {A} (R : A -> A -> Prop) (g : A -> bool) l :
  StronglySorted R l -> StronglySorted R (filter g l).
Proof.
  induction 1 as [|a l Hs IH Ha]; cbn [filter]; [constructor|].
  destruct (g a); [|exact IH]. constructor; [exact IH|].
  rewrite Forall_forall in *. intros b Hb. apply filter_In in Hb as [Hb _].
  now apply Ha.
Qed.

Lemma spec_values_sorted f P others :
  is_primary P = true ->
  StronglySorted created_le (P :: others) ->
  spec_values f (P :: others) =
  first_occurrences (truthy_values f (P :: others)).
Proof.
  intros Hp Hs. unfold spec_values. rewrite (sort_by_createdAt_sorted_id _ Hs).
  cbn [find]. rewrite Hp. apply first_occurrences_own.
Qed.

(** The view of a sequence in ascending [createdAt] order that starts with a
    primary is the view that the specification describes. *)
Lemma build_sorted_cluster P others :
  is_primary P = true ->
  StronglySorted created_le (P :: others) ->
  buildConsolidatedResponse (P :: others) =
  inr (mkConsolidated (id P)
         (spec_values email (P :: others))
         (spec_values phoneNumber (P :: others))
         (spec_secondaryContactIds (P :: others))).
Proof.
  intros Hp Hs. rewrite build_cons, !(spec_values_sorted _ _ _ Hp Hs).
  unfold spec_secondaryContactIds.
  rewrite (sort_by_createdAt_sorted_id _ (StronglySorted_filter _ _ _ Hs)).
  cbn [find]. rewrite Hp.
  do 3 f_equal. apply filter_ext. intros c. apply is_secondary_negb.
Qed.

(** ** C8: invocations on intersecting values are serialized *)

(** C8, as stated, fails: [identifyContact] opens no transaction and takes no
    lock, so two invocations with the same unseen (email, phone) can take
    turns at their store calls.  When both run their lookup before either
    creates, both find nothing, each creates a primary, and the callers get
    different [primaryContactId]s. *)
Lemma interleaved_first_time_requests :
  interleave [callerA; callerB; callerA; callerB]
             (identifyContact (request (Some "a@x.com") (Some "111")))
             (identifyContact (request (Some "a@x.com") (Some "111")))
             empty_store =
  (Ret (mkConsolidated 1 ["a@x.com"] ["111"] []),
   Ret (mkConsolidated 2 ["a@x.com"] ["111"] []),
   mkStore
     [ mkContact 1 (Some "a@x.com") (Some "111") None primary 0 None;
       mkContact 2 (Some "a@x.com") (Some "111") None primary 1 None ]
     3 2).
Proof. reflexivity. Qed.

(** C8, amended.  [identifyContact] runs its store calls without a
    transaction or a lock.  When two invocations with the same
    previously-unseen (email, phone) run one after the other, the first
    one's two store calls before the second one's, exactly one primary is
    created and both callers get the same view, hence the same
    [primaryContactId]. *)
Theorem serial_first_time_requests e p st :
  wf st ->
  truthy e || truthy p = true ->
  find_by e p st = [] ->
  interleave [callerA; callerA; callerB; callerB]
             (identifyContact (request e p)) (identifyContact (request e p))
             st =
  (Ret (mkConsolidated (nextId st) (singleton_value e) (singleton_value p) []),
   Ret (mkConsolidated (nextId st) (singleton_value e) (singleton_value p) []),
   insert_row st (new_row st (or_null e) (or_null p) None primary)).
Proof.
  intros Hwf Hv Hm.
  pose proof (interleave_serial (identifyContact (request e p))
                (identifyContact (request e p)) st) as H.
  fold (identify (request e p) st) in H. unfold request in *.
  rewrite (identify_fresh e p st Hv Hm) in H.
  cbn [final_store store_calls result fst snd] in H.
  fold (identify (mkRequest e p)
          (insert_row st (new_row st (or_null e) (or_null p) None primary))) in H.
  rewrite (identify_again_fresh e p st Hwf Hv Hm) in H.
  exact H.
Qed.

Lemma serial_first_time_requests_witness :
  wf empty_store /\
  truthy (Some "a@x.com") || truthy (Some "111") = true /\
  find_by (Some "a@x.com") (Some "111") empty_store = [] /\
  interleave [callerA; callerA; callerB; callerB]
             (identifyContact (request (Some "a@x.com") (Some "111")))
             (identifyContact (request (Some "a@x.com") (Some "111")))
             empty_store =
  (Ret (mkConsolidated 1 ["a@x.com"] ["111"] []),
   Ret (mkConsolidated 1 ["a@x.com"] ["111"] []),
   mkStore [ mkContact 1 (Some "a@x.com") (Some "111") None primary 0 None ]
           2 1).
Proof.
  split; [exact wf_empty|]. split; [reflexivity|]. split; [reflexivity|].
  exact (serial_first_time_requests (Some "a@x.com") (Some "111") empty_store
           wf_empty eq_refl eq_refl).
Defined.

(** ** C9: the invalid request *)

(** C9.  [identify] signals [InvalidRequest] exactly when both email and
    phone are absent ([null], [undefined] or empty); it then makes no store
    call, leaves the store as it is, and the error is its outcome (one pass,
    no retry). *)
Theorem invalid_request_iff_both_absent e p st :
  (result (identify (request e p) st) = inl InvalidRequest <->
   absent e = true /\ absent p = true) /\
  (if absent e && absent p
   then identify (request e p) st = ([], st, inl InvalidRequest)
   else result (identify (request e p) st) <> inl InvalidRequest).
Proof.
  unfold absent, request.
  assert (Hother : truthy e || truthy p = true ->
                   result (identify (mkRequest e p) st) <> inl InvalidRequest).
  { intros Hv.
    destruct (identify_outcome e p st Hv) as [[view ->] | [-> _]]; discriminate. }
  destruct (truthy e) eqn:He, (truthy p) eqn:Hp; cbn [negb andb];
    try (split; [split; [intros H; now destruct Hother | intros [? ?]; discriminate]
               | now apply Hother]).
  rewrite identify_invalid by assumption. repeat split.
Qed.

(** ** C10: the view builder on a sequence without a primary *)

(** C10.  On a non-empty sequence without a primary the view builder does not
    fail: [primaryContactId] is the id of the first contact, and
    [secondaryContactIds] lists the id of every member (all of them are
    secondaries), the first one included.  The builder fails on the empty
    sequence only. *)
Theorem build_falls_back_to_first first rest :
  (forall c, In c (first :: rest) -> is_primary c = false) ->
  (exists view,
     buildConsolidatedResponse (first :: rest) = inr view /\
     primaryContactId view = id first /\
     secondaryContactIds view = map id (first :: rest)) /\
  buildConsolidatedResponse [] = inl EmptyCluster /\
  (forall contacts e,
     buildConsolidatedResponse contacts = inl e -> contacts = []).
Proof.
  intros Hnone. split; [|split; [reflexivity|]].
  - eexists. split; [apply build_cons|].
    cbn [primaryContactId secondaryContactIds]. split.
    + destruct (find is_primary (first :: rest)) as [c|] eqn:E; [|reflexivity].
      apply find_some in E as [Hc Hp]. rewrite (Hnone c Hc) in Hp. discriminate.
    + f_equal. apply forallb_filter_id, forallb_forall. intros c Hc.
      rewrite is_secondary_negb, (Hnone c Hc). reflexivity.
  - intros contacts e H. now apply build_error in H.
Qed.

Lemma build_falls_back_to_first_witness :
  (forall c, In c orphans -> is_primary c = false) /\
  exists view,
    buildConsolidatedResponse orphans = inr view /\
    primaryContactId view = 5 /\
    secondaryContactIds view = [5; 6].
Proof.
  assert (Hnone : forall c, In c orphans -> is_primary c = false).
  { intros c [<- | [<- | []]]; reflexivity. }
  split; [exact Hnone|].
  exact (proj1 (build_falls_back_to_first _ _ Hnone)).
Defined.

(** * Further properties of the service *)




Lemma key_injective st a b :
  NoDup (map id (rows st)) -> In a (rows st) -> In b (rows st) ->
  id a = id b -> a = b.
Proof.
  generalize (rows st). intros l. induction l as [|x l IH]; simpl; [tauto|].
  intros Hnd Ha Hb E. inversion Hnd as [|? ? Hn Hd]; subst.
  destruct Ha as [<- | Ha], Hb as [<- | Hb]; auto.
  - exfalso. apply Hn. rewrite E. now apply in_map.
  - exfalso. apply Hn. rewrite <- E. now apply in_map.
Qed.

Lemma matches_spec e p c :
  matches e p c = true <->
  deletedAt c = None /\
  ((truthy e = true /\ email c = e) \/ (truthy p = true /\ phoneNumber c = p)).
Proof.
  unfold matches, live. rewrite andb_true_iff, orb_true_iff, !andb_true_iff.
  rewrite !opt_string_eqb_eq. destruct (deletedAt c); intuition congruence.
Qed.

Lemma in_cluster_spec pid c :
  in_cluster pid c = true <->
  (id c = pid \/ linkedId c = Some pid) /\ deletedAt c = None.
Proof.
  unfold in_cluster, live. rewrite andb_true_iff, orb_true_iff.
  rewrite Z.eqb_eq, opt_Z_eqb_eq. destruct (deletedAt c); intuition congruence.
Qed.

(** X1.  [findContactsByEmailOrPhone] leaves the store as it is and returns
    exactly the contacts of the store that are not deleted and hold the given
    email or the given phone (a field that is empty or missing selects
    nothing), oldest first, each row once. *)
Theorem findContactsByEmailOrPhone_reply e p st :
  run (findContactsByEmailOrPhone e p) st =
    ([FindContactsByEmailOrPhone e p], st, inr (find_by e p st)) /\
  (forall c, In c (find_by e p st) <->
     In c (rows st) /\ deletedAt c = None /\
     ((truthy e = true /\ email c = e) \/
      (truthy p = true /\ phoneNumber c = p))) /\
  StronglySorted created_le (find_by e p st) /\
  (NoDup (map id (rows st)) -> NoDup (map id (find_by e p st))) /\
  (absent e && absent p = true -> find_by e p st = []).
Proof.
  split; [reflexivity|]. split; [|split; [|split]].
  - intros c. now rewrite find_by_In, matches_spec.
  - apply sort_by_createdAt_sorted.
  - intros Hk. unfold find_by.
    eapply Permutation_NoDup.
    + apply Permutation_map, Permutation_sym, sort_by_createdAt_perm.
    + now apply NoDup_map_filter.
  - unfold absent. intros H. apply andb_true_iff in H as [He Hp].
    apply negb_true_iff in He, Hp.
    unfold find_by. rewrite filter_none; [reflexivity|].
    intros c _. unfold matches. rewrite He, Hp. simpl. apply andb_false_r.
Qed.

(** X2.  [findLinkedContacts] leaves the store as it is and returns exactly
    the contacts that are not deleted and either have the given id or are
    linked to it, oldest first, each row once. *)
Theorem findLinkedContacts_reply pid st :
  run (findLinkedContacts pid) st =
    ([FindLinkedContacts pid], st, inr (find_linked pid st)) /\
  (forall c, In c (find_linked pid st) <->
     In c (rows st) /\ (id c = pid \/ linkedId c = Some pid) /\
     deletedAt c = None) /\
  StronglySorted created_le (find_linked pid st) /\
  (NoDup (map id (rows st)) -> NoDup (map id (find_linked pid st))).
Proof.
  split; [reflexivity|]. split; [|split].
  - intros c. unfold find_linked.
    now rewrite sort_by_createdAt_In, filter_In, in_cluster_spec.
  - apply sort_by_createdAt_sorted.
  - intros Hk. unfold find_linked.
    eapply Permutation_NoDup.
    + apply Permutation_map, Permutation_sym, sort_by_createdAt_perm.
    + now apply NoDup_map_filter.
Qed.

(** X3.  In a well-formed store [createPrimaryContact] appends one row: a
    live, unlinked primary with a fresh id and the given email and phone.
    The store stays well-formed, the cluster read for the new id is the new
    contact alone, and a lookup by its non-empty email or phone finds it. *)
Theorem createPrimaryContact_then_find e p st :
  wf st ->
  exists c,
    run (createPrimaryContact e p) st =
      ([CreatePrimaryContact e p], insert_row st c, inr c) /\
    columns c = (nextId st, e, p, now st, None) /\
    linkPrecedence c = primary /\ linkedId c = None /\
    ~ In (id c) (map id (rows st)) /\
    rows (insert_row st c) = rows st ++ [c] /\
    wf (insert_row st c) /\
    find_linked (id c) (insert_row st c) = [c] /\
    (forall q, truthy e = true -> In c (find_by e q (insert_row st c))) /\
    (forall q, truthy p = true -> In c (find_by q p (insert_row st c))).
Proof.
  intros Hwf. exists (new_row st e p None primary).
  repeat split; try apply Hwf.
  - intros Hin. apply in_map_iff in Hin as (d & E & Hd).
    apply (wf_fresh st Hwf) in Hd. simpl in E. lia.
  - cbn [insert_row rows]. rewrite map_app. apply NoDup_app.
    + apply Hwf.
    + repeat constructor. simpl. tauto.
    + intros k Hin [<- | []]. apply in_map_iff in Hin as (d & E & Hd).
      apply (wf_fresh st Hwf) in Hd. simpl in E. lia.
  - cbn [insert_row rows nextId].
    intros c [Hc | [<- | []]]%in_app_or;
      [apply (wf_fresh st Hwf) in Hc; lia | simpl; lia].
  - cbn [insert_row rows nextId].
    intros c k [Hc | [<- | []]]%in_app_or E.
    + pose proof (wf_links st Hwf c k Hc E). lia.
    + discriminate E.
  - now apply find_linked_insert_fresh.
  - intros q He. apply find_by_In. split.
    + cbn [insert_row rows]. apply in_or_app. right. now left.
    + now apply matches_email.
  - intros q Hp. apply find_by_In. split.
    + cbn [insert_row rows]. apply in_or_app. right. now left.
    + now apply matches_phone.
Qed.

(** X4.  In a well-formed store [createSecondaryContact] appends one row: a
    live secondary with a fresh id, linked to the given id.  The cluster read
    for that id keeps its members and gains the new contact, and a lookup by
    its non-empty email or phone finds it. *)
Theorem createSecondaryContact_then_find e p pid st :
  wf st ->
  exists c,
    run (createSecondaryContact e p pid) st =
      ([CreateSecondaryContact e p pid], insert_row st c, inr c) /\
    columns c = (nextId st, e, p, now st, None) /\
    linkPrecedence c = secondary /\ linkedId c = Some pid /\
    ~ In (id c) (map id (rows st)) /\
    rows (insert_row st c) = rows st ++ [c] /\
    (forall d, In d (find_linked pid st) ->
               In d (find_linked pid (insert_row st c))) /\
    In c (find_linked pid (insert_row st c)) /\
    (forall q, truthy e = true -> In c (find_by e q (insert_row st c))) /\
    (forall q, truthy p = true -> In c (find_by q p (insert_row st c))).
Proof.
  intros Hwf. exists (new_row st e p (Some pid) secondary).
  repeat split.
  - intros Hin. apply in_map_iff in Hin as (d & E & Hd).
    apply (wf_fresh st Hwf) in Hd. simpl in E. lia.
  - intros d. unfold find_linked.
    rewrite !sort_by_createdAt_In, !filter_In. cbn [insert_row rows].
    intros [Hd Hc]. split; [apply in_or_app; now left | exact Hc].
  - unfold find_linked. apply sort_by_createdAt_In, filter_In. split.
    + cbn [insert_row rows]. apply in_or_app. right. now left.
    + unfold in_cluster. simpl. now rewrite Z.eqb_refl, orb_true_r.
  - intros q He. apply find_by_In. split.
    + cbn [insert_row rows]. apply in_or_app. right. now left.
    + now apply matches_email.
  - intros q Hp. apply find_by_In. split.
    + cbn [insert_row rows]. apply in_or_app. right. now left.
    + now apply matches_phone.
Qed.


Lemma find_id_key cid rs r :
  find (fun r => id r =? cid) rs = Some r -> In r rs /\ id r = cid.
Proof.
  intros H. apply find_some in H as [Hin E]. now apply Z.eqb_eq in E.
Qed.

Lemma demote_where_other cid lid c :
  id c <> cid -> demote_where cid lid c = c.
Proof.
  intros H. unfold demote_where.
  now replace (id c =? cid) with false by (symmetry; now apply Z.eqb_neq).
Qed.

Lemma columns_demote_where cid lid c :
  columns (demote_where cid lid c) = columns c.
Proof. unfold demote_where. now destruct (id c =? cid). Qed.

Lemma demote_where_twice cid lid c :
  demote_where cid lid (demote_where cid lid c) = demote_where cid lid c.
Proof.
  unfold demote_where. destruct (id c =? cid) eqn:E; simpl; now rewrite E.
Qed.


(** X6.  When [id] is a key, [updateToSecondaryContact] on the id of a row
    [c] rewrites that row alone: [c] becomes a secondary linked to the given
    id, every other row stays, id, email, phone, creation and deletion time
    of every row stay, and doing it again changes nothing. *)
Theorem updateToSecondaryContact_existing c lid st :
  NoDup (map id (rows st)) ->
  In c (rows st) ->
  exists st',
    run (updateToSecondaryContact (id c) lid) st =
      ([UpdateToSecondaryContact (id c) lid], st', inr (demote lid c)) /\
    In (demote lid c) (rows st') /\
    (forall d, In d (rows st) -> id d <> id c -> In d (rows st')) /\
    (forall d, In d (rows st') -> d = demote lid c \/ In d (rows st)) /\
    map columns (rows st') = map columns (rows st) /\
    nextId st' = nextId st /\ now st' = now st /\
    run (updateToSecondaryContact (id c) lid) st' =
      ([UpdateToSecondaryContact (id c) lid], st', inr (demote lid c)).
Proof.
  intros Hk Hc.
  assert (Hfind : find (fun r => id r =? id c) (rows st) = Some c).
  { destruct (find_id_In (id c) (rows st)) as [r Hr]; [now apply in_map|].
    rewrite Hr. f_equal. apply find_id_key in Hr as [Hr E].
    now apply (key_injective st). }
  set (st' := with_rows st (map (demote_where (id c) lid) (rows st))).
  assert (Hdem : In (demote lid c) (rows st')).
  { cbn [st' with_rows rows].
    replace (demote lid c) with (demote_where (id c) lid c)
      by (unfold demote_where; now rewrite Z.eqb_refl).
    now apply in_map. }
  exists st'. repeat split; try assumption.
  - unfold updateToSecondaryContact. cbn [run exec]. now rewrite Hfind.
  - intros d Hd Hne. cbn [st' with_rows rows].
    rewrite <- (demote_where_other (id c) lid d Hne). now apply in_map.
  - intros d Hd. cbn [st' with_rows rows] in Hd.
    apply in_map_iff in Hd as (d0 & <- & Hd0).
    unfold demote_where. destruct (id d0 =? id c) eqn:E; [left | now right].
    apply Z.eqb_eq in E. f_equal. now apply (key_injective st).
  - cbn [st' with_rows rows]. rewrite map_map. apply map_ext.
    intros. apply columns_demote_where.
  - unfold updateToSecondaryContact. cbn [run exec].
    assert (Hfind' : find (fun r => id r =? id c) (rows st') =
                     Some (demote lid c)).
    { destruct (find_id_In (id c) (rows st')) as [r Hr].
      - cbn [st' with_rows rows]. rewrite map_id_demote_where. now apply in_map.
      - rewrite Hr. f_equal. apply find_id_key in Hr as [Hr E].
        cbn [st' with_rows rows] in Hr.
        apply in_map_iff in Hr as (d0 & <- & Hd0).
        rewrite id_demote_where in E.
        rewrite (key_injective st d0 c Hk Hd0 Hc E).
        unfold demote_where. now rewrite Z.eqb_refl. }
    rewrite Hfind'. cbn [st' with_rows rows nextId now].
    unfold with_rows. cbn [rows nextId now].
    rewrite map_map.
    rewrite (map_ext _ _ (demote_where_twice (id c) lid)).
    reflexivity.
Qed.


Lemma columns_demote_ids D lid c : columns (demote_ids D lid c) = columns c.
Proof. unfold demote_ids. now destruct (existsb (Z.eqb (id c)) D). Qed.

Lemma merged_columns e p P rest st :
  map columns (rows (merged_store e p P rest st)) =
  map columns
    (rows st ++
     (if new_information e p (find_by e p st)
      then [new_row st (or_null e) (or_null p) (Some (id P)) secondary]
      else [])).
Proof.
  rewrite merged_rows, !map_app, map_map. f_equal.
  apply map_ext. intros. apply columns_demote_ids.
Qed.

(** *** Errors of the service under rejected store calls *)

Lemma never_throws_bind {A B} e (p : Prog A) (f : A -> Prog B) :
  never_throws e p -> (forall a, never_throws e (f a)) ->
  never_throws e (bind p f).
Proof.
  induction p as [a|e'|c k IH]; cbn [bind never_throws]; intros Hp Hf; auto.
Qed.

Lemma never_throws_for_each {A} e (l : list A) body :
  (forall x, never_throws e (body x)) -> never_throws e (for_each l body).
Proof.
  intros Hb. induction l as [|x l IH]; cbn [for_each]; [exact I|].
  apply never_throws_bind; auto.
Qed.

(** A program that never throws [e] does not end in [e], whichever calls are
    rejected; a failed update is [RecordNotFound]. *)
Lemma never_throws_run {A} e (p : Prog A) :
  e <> RecordNotFound -> never_throws e p ->
  forall rejects st, snd (run_unreliable rejects p st) <> inl (thrown e).
Proof.
  intros Hn. induction p as [a|e'|c k IH]; cbn [never_throws run_unreliable];
    intros Hp rejects st.
  - discriminate.
  - cbn. congruence.
  - assert (Hgo : snd (match exec c st with
          | (inl e0, st') => ([c], st', inl (thrown e0))
          | (inr r, st') =>
              let '(calls, st'', res) :=
                run_unreliable (tl rejects) (k r) st' in
              (c :: calls, st'', res)
          end) <> inl (thrown e)).
    { destruct (exec c st) as [[e0 | r] st'] eqn:Ex.
      - cbn. intros [= ->]. destruct c; cbn in Ex; try discriminate.
        destruct (find _ _); [discriminate|]. congruence.
      - specialize (IH r (Hp r) (tl rejects) st').
        destruct (run_unreliable (tl rejects) (k r) st') as [[calls st''] res].
        exact IH. }
    destruct rejects as [|[|] rejects']; auto. cbn. discriminate.
Qed.

Lemma own_error_not_thrown {A} (p : Prog A) err :
  err = InvalidRequest \/ err = TypeErrorUndefined ->
  never_throws TypeErrorUndefined p -> never_throws InvalidRequest p ->
  forall rejects st, snd (run_unreliable rejects p st) <> inl (thrown err).
Proof.
  intros [-> | ->] H1 H2; apply never_throws_run; auto; discriminate.
Qed.

(** After the lookup, whatever it returned, the invocation either throws the
    [TypeError] at once or never throws an error of its own. *)
Lemma identify_after_lookup e p :
  negb (truthy e) && negb (truthy p) = false ->
  exists k,
    identifyContact (mkRequest e p) = Call (FindContactsByEmailOrPhone e p) k /\
    forall existing,
      k existing = Throw TypeErrorUndefined \/
      (never_throws TypeErrorUndefined (k existing) /\
       never_throws InvalidRequest (k existing)).
Proof.
  intros Hv. unfold identifyContact. cbn [req_email req_phoneNumber].
  rewrite Hv. unfold findContactsByEmailOrPhone. cbn [bind].
  eexists. split; [reflexivity|]. intros existing. cbn beta.
  destruct (Z.of_nat (List.length existing) =? 0).
  - right. cbn. split; intros; exact I.
  - destruct (sort_by_createdAt (filter is_primary existing)) as [|P rest].
    + left. cbn [List.length Z.of_nat Z.ltb Z.compare hd_error tl bind id_of].
      destruct (is_new e (emails_of existing) || is_new p (phones_of existing));
        reflexivity.
    + right. cbn [hd_error tl].
      assert (H : forall err, err <> EmptyCluster ->
        never_throws err
          ((if 1 <? Z.of_nat (List.length (P :: rest))
            then for_each rest (demotion (Some P)) else Ret tt) ;;
           (if is_new e (emails_of existing) || is_new p (phones_of existing)
            then oid <- id_of (Some P) ;;
                 createSecondaryContact (or_null e) (or_null p) oid ;; Ret tt
            else Ret tt) ;;
           oid <- id_of (Some P) ;;
           allContacts <- findLinkedContacts oid ;;
           lift (buildConsolidatedResponse allContacts))).
      { intros err Herr. apply never_throws_bind.
        - destruct (1 <? _); [|exact I]. apply never_throws_for_each.
          intros x. cbn. intros; exact I.
        - intros _. apply never_throws_bind.
          + destruct (_ || _); cbn; intros; exact I.
          + intros _. cbn. intros all.
            destruct (buildConsolidatedResponse all) as [e0|v] eqn:B; cbn;
              [|exact I].
            apply build_error in B as [_ ->]. congruence. }
      split; apply H; discriminate.
Qed.

(** When no call is rejected, [run_unreliable] is [run]. *)
Lemma run_unreliable_reliable {A} (p : Prog A) : forall rejects st,
  forallb negb rejects = true ->
  run_unreliable rejects p st =
  (store_calls (run p st), final_store (run p st),
   match result (run p st) with
   | inl e => inl (thrown e)
   | inr a => inr a
   end).
Proof.
  induction p as [a|e|c k IH]; intros rejects st Hr; try reflexivity.
  cbn [run_unreliable run].
  assert (Ht : forallb negb (tl rejects) = true).
  { destruct rejects as [|b r]; [reflexivity|]. cbn in Hr.
    now apply andb_true_iff in Hr. }
  assert (Hm : forall (X : Type) (x y : X),
             match rejects with true :: _ => x | _ => y end = y).
  { intros X x y. destruct rejects as [|[|] r]; try reflexivity.
    discriminate Hr. }
  rewrite Hm. destruct (exec c st) as [[e | r] s]; [reflexivity|].
  rewrite (IH r (tl rejects) s Ht).
  destruct (run (k r) s) as [[cs s'] res]. reflexivity.
Qed.

(** A rejected call is another matter: the read that follows a demotion can
    be rejected, and the demotion stays written. *)
Lemma rejected_read_after_demotion :
  run_unreliable [false; false; true] (identifyContact joining_request)
                 two_primaries =
  ([ FindContactsByEmailOrPhone (Some "a@x.com") (Some "222");
     UpdateToSecondaryContact 2 1;
     FindLinkedContacts 1 ],
   two_primaries_merged,
   inl (rejected (FindLinkedContacts 1))).
Proof. reflexivity. Qed.

(** X7.  Whichever store calls the database rejects, an invocation that
    throws one of the service's own two errors, the invalid-request error or
    the [TypeError] of a match without a primary, has made no write call and
    leaves the store as it was. *)
Theorem own_errors_write_nothing rejects e p st calls st' err :
  run_unreliable rejects (identifyContact (request e p)) st =
    (calls, st', inl (thrown err)) ->
  err = InvalidRequest \/ err = TypeErrorUndefined ->
  st' = st /\ forallb (fun c => negb (is_write c)) calls = true.
Proof.
  unfold request. intros Hrun Herr.
  destruct (negb (truthy e) && negb (truthy p)) eqn:Hv.
  - unfold identifyContact in Hrun. cbn [req_email req_phoneNumber] in Hrun.
    rewrite Hv in Hrun. cbn in Hrun. injection Hrun as <- <- _. auto.
  - destruct (identify_after_lookup e p Hv) as (k & Ek & Hk).
    rewrite Ek in Hrun. clear Ek. cbn [run_unreliable exec] in Hrun.
    assert (Hrest : run_unreliable (tl rejects) (k (find_by e p st)) st =
                    ([], st, inl (thrown TypeErrorUndefined)) \/
                    snd (run_unreliable (tl rejects) (k (find_by e p st)) st)
                      <> inl (thrown err)).
    { destruct (Hk (find_by e p st)) as [E | [H1 H2]].
      - left. now rewrite E.
      - right. now apply own_error_not_thrown. }
    destruct (run_unreliable (tl rejects) (k (find_by e p st)) st)
      as [[cs s] r].
    assert (Hgo : (FindContactsByEmailOrPhone e p :: cs, s, r) =
                  (calls, st', inl (thrown err))).
    { destruct rejects as [|[|] rejects']; [exact Hrun | discriminate Hrun
                                            | exact Hrun]. }
    injection Hgo as <- <- ->. destruct Hrest as [[= -> -> _] | N].
    + auto.
    + now elim N.
Qed.

(** X8.  Whatever the request, an invocation adds at most one row, with the
    next id, the current time and the incoming email and phone, and leaves
    the id, email, phone, creation and deletion time of every existing row
    as they were, in the same order. *)
Theorem identify_keeps_contact_data e p st :
  exists created,
    (List.length created <= 1)%nat /\
    map columns (rows (final_store (identify (request e p) st))) =
      map columns (rows st ++ created) /\
    nextId (final_store (identify (request e p) st)) =
      nextId st + Z.of_nat (List.length created) /\
    (forall c, In c created ->
       columns c = (nextId st, or_null e, or_null p, now st, None)).
Proof.
  unfold request.
  destruct (identify_cases e p st)
    as [[He Hp] | [[Hv Hm] | [(Hv & Hne & Hnp) | (Hv & P & rest & HP)]]].
  - rewrite identify_invalid by assumption. exists []. cbn.
    rewrite app_nil_r. repeat split; [lia | lia | tauto].
  - rewrite identify_fresh by assumption.
    exists [new_row st (or_null e) (or_null p) None primary]. cbn.
    repeat split; [lia|]. intros c [<- | []]. reflexivity.
  - rewrite identify_no_primary by assumption. exists []. cbn.
    rewrite app_nil_r. repeat split; [lia | lia | tauto].
  - rewrite (identify_matched e p st P rest Hv HP). cbn [final_store fst snd].
    exists (if new_information e p (find_by e p st)
            then [new_row st (or_null e) (or_null p) (Some (id P)) secondary]
            else []).
    split; [|split; [apply merged_columns | split]].
    + destruct (new_information e p (find_by e p st)); simpl; lia.
    + unfold merged_store.
      destruct (new_information e p (find_by e p st)); cbn; lia.
    + destruct (new_information e p (find_by e p st)); [|intros c []].
      intros c [<- | []]. reflexivity.
Qed.

(** X9.  When [id] is a key, an invocation never touches an existing
    secondary: it is in the store afterwards as it was, link included. *)
Theorem identify_leaves_secondaries e p st c :
  NoDup (map id (rows st)) ->
  In c (rows st) -> is_secondary c = true ->
  In c (rows (final_store (identify (request e p) st))).
Proof.
  unfold request. intros Hk Hc Hs.
  destruct (identify_cases e p st)
    as [[He Hp] | [[Hv Hm] | [(Hv & Hne & Hnp) | (Hv & P & rest & HP)]]].
  - now rewrite identify_invalid.
  - rewrite identify_fresh by assumption. cbn. apply in_or_app. now left.
  - now rewrite identify_no_primary.
  - rewrite (identify_matched e p st P rest Hv HP). cbn [final_store fst snd].
    rewrite merged_rows. apply in_or_app. left.
    replace c with (demote_ids (map id rest) (id P) c) at 1;
      [now apply in_map|].
    unfold demote_ids.
    destruct (existsb (Z.eqb (id c)) (map id rest)) eqn:E; [|reflexivity].
    exfalso. apply existsb_id_In, in_map_iff in E as (r & E & Hr).
    assert (Hin : In r (P :: rest)) by now right.
    rewrite <- HP in Hin.
    pose proof (primaries_in_rows e p st r Hin) as Hrows.
    apply sort_by_createdAt_In, filter_In in Hin as [_ Hprim].
    rewrite (key_injective st r c Hk Hrows Hc E) in Hprim.
    rewrite is_secondary_negb, Hprim in Hs. discriminate.
Qed.

(** X10.  After a successful invocation every non-empty incoming value is
    held by a live contact of the store. *)
Theorem identify_records_values e p st view :
  result (identify (request e p) st) = inr view ->
  (truthy e = true ->
   value_free email e (final_store (identify (request e p) st)) = false) /\
  (truthy p = true ->
   value_free phoneNumber p (final_store (identify (request e p) st)) = false).
Proof.
  unfold request.
  assert (Hheld : forall f v st' c,
            In c (rows st') -> live c = true -> f c = v ->
            value_free f v st' = false).
  { intros f v st' c Hc Hl E. unfold value_free. apply negb_false_iff.
    apply existsb_exists. exists c. split; [exact Hc|].
    rewrite Hl. now apply opt_string_eqb_eq. }
  destruct (identify_cases e p st)
    as [[He Hp] | [[Hv Hm] | [(Hv & Hne & Hnp) | (Hv & P & rest & HP)]]].
  - rewrite identify_invalid by assumption. discriminate.
  - rewrite identify_fresh by assumption. intros _. cbn [final_store fst snd].
    set (N := new_row st (or_null e) (or_null p) None primary).
    assert (In N (rows (insert_row st N)))
      by (cbn; apply in_or_app; right; now left).
    split; intros Ht; apply (Hheld _ _ _ N); auto; simpl;
      now apply or_null_truthy.
  - rewrite identify_no_primary by assumption. discriminate.
  - rewrite (identify_matched e p st P rest Hv HP). intros _.
    cbn [final_store fst snd].
    pose proof (no_news_after_merge e p st P rest Hv) as Hn.
    unfold new_information in Hn. apply orb_false_iff in Hn as [Hne Hnp].
    split; intros Ht.
    + apply is_new_false in Hne as [Hne | (c & Hc & E)]; [congruence|].
      apply find_by_In in Hc as [Hc Hm]. unfold matches in Hm.
      apply andb_true_iff in Hm as [Hl _]. now apply (Hheld _ _ _ c).
    + apply is_new_false in Hnp as [Hnp | (c & Hc & E)]; [congruence|].
      apply find_by_In in Hc as [Hc Hm]. unfold matches in Hm.
      apply andb_true_iff in Hm as [Hl _]. now apply (Hheld _ _ _ c).
Qed.

Lemma oldest_is_minimal e p st P rest :
  sort_by_createdAt (filter is_primary (find_by e p st)) = P :: rest ->
  forall c, In c (P :: rest) -> createdAt P <= createdAt c.
Proof.
  intros HP c [<- | Hc]; [lia|].
  pose proof (sort_by_createdAt_sorted (filter is_primary (find_by e p st))) as Hs.
  rewrite HP in Hs. inversion Hs as [|? ? _ Hall]; subst.
  rewrite Forall_forall in Hall. now apply Hall.
Qed.

Lemma matched_primary e p st P rest c :
  sort_by_createdAt (filter is_primary (find_by e p st)) = P :: rest ->
  In c (P :: rest) <-> In c (find_by e p st) /\ is_primary c = true.
Proof.
  intros HP. now rewrite <- HP, sort_by_createdAt_In, filter_In.
Qed.

(** X11.  An invocation creates at most one contact; it creates a primary
    only when nothing matched, a secondary only under a matched primary, and
    it demotes only matched primaries, each under a matched primary that is
    not younger. *)
Theorem identify_store_calls e p st :
  (List.length (filter is_create (store_calls (identify (request e p) st)))
     <= 1)%nat /\
  (forall ce cp,
     In (CreatePrimaryContact ce cp) (store_calls (identify (request e p) st)) ->
     find_by e p st = []) /\
  (forall ce cp pid,
     In (CreateSecondaryContact ce cp pid)
        (store_calls (identify (request e p) st)) ->
     exists P, In P (find_by e p st) /\ is_primary P = true /\ id P = pid) /\
  (forall cid lid,
     In (UpdateToSecondaryContact cid lid)
        (store_calls (identify (request e p) st)) ->
     exists c P,
       In c (find_by e p st) /\ is_primary c = true /\ id c = cid /\
       In P (find_by e p st) /\ is_primary P = true /\ id P = lid /\
       createdAt P <= createdAt c).
Proof.
  unfold request.
  destruct (identify_cases e p st)
    as [[He Hp] | [[Hv Hm] | [(Hv & Hne & Hnp) | (Hv & P & rest & HP)]]].
  - rewrite identify_invalid by assumption. cbn. repeat split; try lia; tauto.
  - rewrite identify_fresh by assumption. cbn. repeat split; try lia; auto.
    + intros ce cp pid [H | [H | []]]; discriminate.
    + intros cid lid [H | [H | []]]; discriminate.
  - rewrite identify_no_primary by assumption. cbn. repeat split; try lia.
    + intros ce cp [H | []]; discriminate.
    + intros ce cp pid [H | []]; discriminate.
    + intros cid lid [H | []]; discriminate.
  - rewrite (identify_matched e p st P rest Hv HP).
    cbn [store_calls fst]. unfold merge_calls.
    assert (HPin : In P (find_by e p st) /\ is_primary P = true)
      by (apply (matched_primary e p st P rest P HP); now left).
    assert (Hshape : forall call,
      In call (FindContactsByEmailOrPhone e p
               :: map (fun c => UpdateToSecondaryContact (id c) (id P)) rest
               ++ (if new_information e p (find_by e p st)
                   then [CreateSecondaryContact (or_null e) (or_null p) (id P)]
                   else [])
               ++ [FindLinkedContacts (id P)]) ->
      call = FindContactsByEmailOrPhone e p \/
      (exists c, In c rest /\ call = UpdateToSecondaryContact (id c) (id P)) \/
      call = CreateSecondaryContact (or_null e) (or_null p) (id P) \/
      call = FindLinkedContacts (id P)).
    { intros call [<- | Hin]; [now left|]. right.
      apply in_app_or in Hin as [Hin | Hin].
      - left. apply in_map_iff in Hin as (c & <- & Hc). eauto.
      - right. apply in_app_or in Hin as [Hin | [<- | []]]; [|now right].
        destruct (new_information e p (find_by e p st)); [|destruct Hin].
        destruct Hin as [<- | []]. now left. }
    split; [|split; [|split]].
    + cbn [filter is_create]. rewrite !filter_app.
      rewrite (filter_none is_create
                 (map (fun c => UpdateToSecondaryContact (id c) (id P)) rest)).
      * destruct (new_information e p (find_by e p st)); cbn; lia.
      * intros call Hin. apply in_map_iff in Hin as (c & <- & _). reflexivity.
    + intros ce cp Hin.
      apply Hshape in Hin as [H | [(c & _ & H) | [H | H]]]; discriminate.
    + intros ce cp pid Hin.
      apply Hshape in Hin as [H | [(c & _ & H) | [H | H]]]; try discriminate.
      injection H as _ _ ->. exists P. tauto.
    + intros cid lid Hin.
      apply Hshape in Hin as [H | [(c & Hc & H) | [H | H]]]; try discriminate.
      injection H as -> ->. exists c, P.
      assert (Hcin : In c (P :: rest)) by now right.
      pose proof (oldest_is_minimal e p st P rest HP c Hcin).
      apply (matched_primary e p st P rest c HP) in Hcin. tauto.
Qed.

Lemma build_values l view :
  buildConsolidatedResponse l = inr view ->
  emails view = first_occurrences (truthy_values email l) /\
  phoneNumbers view = first_occurrences (truthy_values phoneNumber l) /\
  secondaryContactIds view = map id (filter is_secondary l).
Proof.
  destruct l as [|c l]; [discriminate|].
  rewrite build_cons. intros [= <-]. auto.
Qed.

(** X12.  When a successful invocation created a contact, the view it
    returns lists the incoming email and the incoming phone. *)
Theorem created_contact_is_in_view e p st view call :
  result (identify (request e p) st) = inr view ->
  In call (store_calls (identify (request e p) st)) ->
  is_create call = true ->
  (forall s, e = Some s -> s <> "" -> In s (emails view)) /\
  (forall s, p = Some s -> s <> "" -> In s (phoneNumbers view)).
Proof.
  unfold request.
  destruct (identify_cases e p st)
    as [[He Hp] | [[Hv Hm] | [(Hv & Hne & Hnp) | (Hv & P & rest & HP)]]].
  - rewrite identify_invalid by assumption. discriminate.
  - rewrite identify_fresh by assumption. cbn [result snd].
    intros [= <-] _ _. cbn [emails phoneNumbers]. split; intros s -> Hs;
      apply truthy_Some in Hs; unfold singleton_value; rewrite Hs; now left.
  - rewrite identify_no_primary by assumption. discriminate.
  - rewrite (identify_matched e p st P rest Hv HP).
    cbn [result store_calls fst snd]. intros Hview Hin Hc.
    assert (Hn : new_information e p (find_by e p st) = true).
    { unfold merge_calls in Hin. destruct Hin as [<- | Hin]; [discriminate|].
      apply in_app_or in Hin as [Hin | Hin].
      { apply in_map_iff in Hin as (c & <- & _). discriminate. }
      apply in_app_or in Hin as [Hin | [<- | []]]; [|discriminate].
      destruct (new_information e p (find_by e p st)); [reflexivity|].
      destruct Hin. }
    set (N := new_row st (or_null e) (or_null p) (Some (id P)) secondary).
    assert (HN : In N (find_linked (id P) (merged_store e p P rest st))).
    { unfold find_linked. apply sort_by_createdAt_In, filter_In. split.
      - rewrite merged_rows, Hn. apply in_or_app. right. now left.
      - unfold in_cluster. simpl. now rewrite Z.eqb_refl, orb_true_r. }
    apply build_values in Hview as (-> & -> & _).
    split; intros s -> Hs;
      rewrite first_occurrences_In, truthy_values_In; exists N;
      apply truthy_Some in Hs; (split; [exact HN|]); split; auto;
      simpl; now apply or_null_truthy.
Qed.


Lemma consistent_empty : consistent empty_store.
Proof. split; simpl; try tauto. constructor. Qed.

Lemma created_injective st a b :
  NoDup (map createdAt (rows st)) -> In a (rows st) -> In b (rows st) ->
  createdAt a = createdAt b -> a = b.
Proof.
  generalize (rows st). intros l. induction l as [|x l IH]; simpl; [tauto|].
  intros Hnd Ha Hb E. inversion Hnd as [|? ? Hn Hd]; subst.
  destruct Ha as [<- | Ha], Hb as [<- | Hb]; auto.
  - exfalso. apply Hn. rewrite E. now apply in_map.
  - exfalso. apply Hn. rewrite <- E. now apply in_map.
Qed.

Lemma or_null_not_empty v : or_null v <> Some "".
Proof.
  unfold or_null. destruct v as [s|]; [|discriminate]. simpl.
  destruct (s =? "")%string eqn:E; simpl; [discriminate|].
  apply String.eqb_neq in E. congruence.
Qed.

Lemma or_null_present e p :
  truthy e || truthy p = true -> or_null e <> None \/ or_null p <> None.
Proof.
  unfold or_null. destruct (truthy e) eqn:He, (truthy p) eqn:Hp;
    try discriminate; intros _.
  - left. destruct e; [discriminate | discriminate He].
  - left. destruct e; [discriminate | discriminate He].
  - right. destruct p; [discriminate | discriminate Hp].
Qed.

Lemma consistent_insert st e p l lp :
  consistent st ->
  truthy e || truthy p = true ->
  (lp = primary -> l = None) ->
  (lp = secondary -> exists q, In q (rows st) /\ l = Some (id q)) ->
  consistent (insert_row st (new_row st (or_null e) (or_null p) l lp)).
Proof.
  intros [Hdel Hprim Hsec Hpast Hdist Hval] Hv Hp Hs.
  split; cbn [insert_row rows now].
  - intros c [Hc | [<- | []]]%in_app_or; [auto | reflexivity].
  - intros c [Hc | [<- | []]]%in_app_or; [auto|].
    unfold is_primary. simpl. destruct lp; [auto | discriminate].
  - intros c [Hc | [<- | []]]%in_app_or Hc2.
    + destruct (Hsec c Hc Hc2) as (q & Hq & E & Hlt).
      exists q. split; [apply in_or_app; now left | auto].
    + unfold is_secondary in Hc2. simpl in Hc2.
      destruct lp; [discriminate|].
      destruct (Hs eq_refl) as (q & Hq & ->).
      exists q. split; [apply in_or_app; now left|]. split; [reflexivity|].
      simpl. now apply Hpast.
  - intros c [Hc | [<- | []]]%in_app_or; [apply Hpast in Hc; lia | simpl; lia].
  - rewrite map_app. apply NoDup_app; [exact Hdist | repeat constructor; simpl; tauto |].
    intros t Hin [<- | []]. apply in_map_iff in Hin as (c & E & Hc).
    apply Hpast in Hc. simpl in E. lia.
  - intros c [Hc | [<- | []]]%in_app_or; [auto|]. simpl.
    split; [apply or_null_not_empty|]. split; [apply or_null_not_empty|].
    now apply or_null_present.
Qed.

Lemma demoted_cases e p st P rest c :
  NoDup (map id (rows st)) ->
  sort_by_createdAt (filter is_primary (find_by e p st)) = P :: rest ->
  In c (rows st) ->
  (demote_ids (map id rest) (id P) c = c /\ ~ In (id c) (map id rest)) \/
  (demote_ids (map id rest) (id P) c = demote (id P) c /\ In c rest).
Proof.
  intros Hk HP Hc. unfold demote_ids.
  destruct (existsb (Z.eqb (id c)) (map id rest)) eqn:E.
  - right. split; [reflexivity|].
    apply existsb_id_In, in_map_iff in E as (r & E & Hr).
    assert (Hin : In r (P :: rest)) by now right.
    rewrite <- HP in Hin. apply primaries_in_rows in Hin.
    now rewrite <- (key_injective st r c Hk Hin Hc E).
  - left. split; [reflexivity|]. intros H. apply existsb_id_In in H. congruence.
Qed.

Lemma createdAt_demote_ids D lid c :
  createdAt (demote_ids D lid c) = createdAt c.
Proof. unfold demote_ids. now destruct (existsb (Z.eqb (id c)) D). Qed.

Lemma deletedAt_demote_ids D lid c :
  deletedAt (demote_ids D lid c) = deletedAt c.
Proof. unfold demote_ids. now destruct (existsb (Z.eqb (id c)) D). Qed.

Lemma consistent_demote e p st P rest :
  wf st -> consistent st ->
  sort_by_createdAt (filter is_primary (find_by e p st)) = P :: rest ->
  consistent (with_rows st (map (demote_ids (map id rest) (id P)) (rows st))).
Proof.
  intros Hwf [Hdel Hprim Hsec Hpast Hdist Hval] HP.
  pose proof (wf_key st Hwf) as Hk.
  pose proof (primaries_distinct e p st P rest HP Hwf) as Hnd.
  inversion Hnd as [|? ? HnP _]; subst.
  destruct (oldest_matched e p st P rest HP) as [HPin _].
  set (F := demote_ids (map id rest) (id P)).
  assert (HFP : In P (map F (rows st))).
  { destruct (demoted_cases e p st P rest P Hk HP HPin) as [[E _] | [_ H]].
    - rewrite <- E. now apply in_map.
    - exfalso. apply HnP. now apply in_map. }
  split; cbn [with_rows rows now].
  - intros c' (c & <- & Hc)%in_map_iff. unfold F.
    rewrite deletedAt_demote_ids. auto.
  - intros c' (c & <- & Hc)%in_map_iff Hp.
    destruct (demoted_cases e p st P rest c Hk HP Hc) as [[E _] | [E _]];
      fold F in E; rewrite E in *; [auto | discriminate].
  - intros c' (c & <- & Hc)%in_map_iff Hs.
    destruct (demoted_cases e p st P rest c Hk HP Hc) as [[E _] | [E Hr]];
      fold F in E; rewrite E in *.
    + destruct (Hsec c Hc Hs) as (q & Hq & El & Hlt).
      exists (F q). split; [now apply in_map|]. unfold F.
      now rewrite id_demote_ids, createdAt_demote_ids.
    + exists P. split; [exact HFP|]. split; [reflexivity|].
      cbn [demote createdAt].
      assert (createdAt P <= createdAt c)
        by (apply (oldest_is_minimal e p st P rest HP); now right).
      assert (createdAt P <> createdAt c).
      { intros Heq. apply HnP.
        rewrite (created_injective st P c Hdist HPin Hc Heq). now apply in_map. }
      lia.
  - intros c' (c & <- & Hc)%in_map_iff. unfold F.
    rewrite createdAt_demote_ids. auto.
  - rewrite map_map. erewrite map_ext; [exact Hdist|].
    intros. apply createdAt_demote_ids.
  - intros c' (c & <- & Hc)%in_map_iff. unfold F.
    rewrite email_demote_ids, phone_demote_ids. auto.
Qed.

Lemma consistent_identify e p st :
  wf st -> consistent st ->
  consistent (final_store (identify (mkRequest e p) st)).
Proof.
  intros Hwf Hc.
  destruct (identify_cases e p st)
    as [[He Hp] | [[Hv Hm] | [(Hv & Hne & Hnp) | (Hv & P & rest & HP)]]].
  - now rewrite identify_invalid.
  - rewrite identify_fresh by assumption. cbn [final_store fst snd].
    apply consistent_insert; auto. discriminate.
  - now rewrite identify_no_primary.
  - rewrite (identify_matched e p st P rest Hv HP). cbn [final_store fst snd].
    pose proof (consistent_demote e p st P rest Hwf Hc HP) as Hd.
    unfold merged_store. destruct (new_information e p (find_by e p st)); [|exact Hd].
    apply consistent_insert; auto; [discriminate|].
    intros _. exists (demote_ids (map id rest) (id P) P).
    split; [|now rewrite id_demote_ids].
    cbn [with_rows rows]. apply in_map. now apply (oldest_matched e p st P rest).
Qed.

Lemma reachable_consistent st : reachable st -> consistent st.
Proof.
  induction 1 as [|st [e p] view Hr IH _].
  - apply consistent_empty.
  - apply consistent_identify; [now apply reachable_wf | exact IH].
Qed.

(** X13.  Every store reached from the empty store is well-formed and
    consistent: ids are distinct and below the counter, nothing is deleted,
    a primary has no link, a secondary is linked to an older contact of the
    store, creation times are distinct, and no stored email or phone is the
    empty string. *)
Theorem reachable_store_invariants st :
  reachable st -> wf st /\ consistent st.
Proof.
  intros H. split; [now apply reachable_wf | now apply reachable_consistent].
Qed.

Lemma find_linked_In pid st c :
  In c (find_linked pid st) <->
  In c (rows st) /\ in_cluster pid c = true.
Proof. unfold find_linked. now rewrite sort_by_createdAt_In, filter_In. Qed.

Lemma find_linked_key pid st :
  NoDup (map id (rows st)) -> NoDup (map id (find_linked pid st)).
Proof.
  intros Hk. unfold find_linked. eapply Permutation_NoDup.
  - apply Permutation_map, Permutation_sym, sort_by_createdAt_perm.
  - now apply NoDup_map_filter.
Qed.

Lemma cluster_head st P :
  wf st -> consistent st ->
  In P (rows st) -> is_primary P = true ->
  exists others,
    find_linked (id P) st = P :: others /\
    ~ In (id P) (map id others) /\
    forall c, In c others ->
      In c (rows st) /\ is_secondary c = true /\
      linkedId c = Some (id P) /\ createdAt P < createdAt c.
Proof.
  intros Hwf Hc HP Hprim. pose proof (wf_key st Hwf) as Hk.
  assert (HPin : In P (find_linked (id P) st)).
  { apply find_linked_In. split; [exact HP|]. unfold in_cluster, live.
    now rewrite Z.eqb_refl, (never_deleted st Hc P HP). }
  assert (Hmember : forall c, In c (find_linked (id P) st) ->
            c = P \/ (In c (rows st) /\ is_secondary c = true /\
                      linkedId c = Some (id P) /\ createdAt P < createdAt c)).
  { intros c Hin. apply find_linked_In in Hin as [Hin Hcl].
    apply in_cluster_spec in Hcl as [[E | E] _].
    - left. now apply (key_injective st).
    - right. assert (Hs : is_secondary c = true).
      { rewrite is_secondary_negb. destruct (is_primary c) eqn:Ep; [|reflexivity].
        rewrite (primary_unlinked st Hc c Hin Ep) in E. discriminate. }
      destruct (secondary_linked st Hc c Hin Hs) as (q & Hq & El & Hlt).
      rewrite E in El. injection El as El.
      rewrite <- (key_injective st P q Hk HP Hq El) in Hlt. auto. }
  pose proof (find_linked_key (id P) st Hk) as Hnd.
  pose proof (sort_by_createdAt_sorted (filter (in_cluster (id P)) (rows st)))
    as Hs. fold (find_linked (id P) st) in Hs.
  destruct (find_linked (id P) st) as [|h others]; [destruct HPin|].
  inversion Hs as [|? ? _ Hall]; subst. rewrite Forall_forall in Hall.
  inversion Hnd as [|? ? Hnh _]; subst.
  assert (h = P) as ->.
  { destruct (Hmember h (or_introl eq_refl)) as [-> | (_ & _ & _ & Hlt)]; auto.
    destruct HPin as [-> | HPin]; auto.
    specialize (Hall P HPin). unfold created_le in Hall. lia. }
  exists others. repeat split; auto;
    destruct (Hmember c (or_intror H)) as [-> | (? & ? & ? & ?)]; auto;
    exfalso; apply Hnh; now apply in_map.
Qed.

(** C7.  In a well-formed, consistent store, which every reachable store
    is, take the cluster that [findLinkedContacts] reads back for a primary
    [P]: [P] and then its secondaries, in ascending [createdAt] order.  For
    it the view builder returns a view: [primaryContactId] is the id of [P];
    [emails] are the cluster's distinct non-empty email values, the primary's
    own email first when it has one, then the remaining values in ascending
    [createdAt] order of the owning contact, each value exactly once;
    [phoneNumbers] likewise; [secondaryContactIds] are the ids of all
    non-primary members in ascending [createdAt] order, which are the members
    after [P]. *)
Theorem builder_on_cluster_read st P :
  wf st -> consistent st ->
  In P (rows st) -> is_primary P = true ->
  exists others view,
    find_linked (id P) st = P :: others /\
    StronglySorted created_le (P :: others) /\
    buildConsolidatedResponse (find_linked (id P) st) = inr view /\
    primaryContactId view = id P /\
    emails view = spec_values email (find_linked (id P) st) /\
    phoneNumbers view = spec_values phoneNumber (find_linked (id P) st) /\
    secondaryContactIds view =
      spec_secondaryContactIds (find_linked (id P) st) /\
    primary_value_first email (find_linked (id P) st) (emails view) /\
    primary_value_first phoneNumber (find_linked (id P) st)
                        (phoneNumbers view) /\
    NoDup (emails view) /\ NoDup (phoneNumbers view) /\
    (forall s, In s (emails view) <->
       exists c, In c (find_linked (id P) st) /\ email c = Some s /\ s <> "") /\
    (forall s, In s (phoneNumbers view) <->
       exists c, In c (find_linked (id P) st) /\
                 phoneNumber c = Some s /\ s <> "") /\
    secondaryContactIds view = map id others /\
    (forall c, In c others -> is_primary c = false).
Proof.
  intros Hwf Hc HP Hp.
  destruct (cluster_head st P Hwf Hc HP Hp) as (others & E & _ & Hothers).
  pose proof (sort_by_createdAt_sorted (filter (in_cluster (id P)) (rows st)))
    as Hs. fold (find_linked (id P) st) in Hs. rewrite E in *.
  exists others. eexists.
  split; [reflexivity|]. split; [exact Hs|].
  split; [apply (build_sorted_cluster P others Hp Hs)|].
  cbn [primaryContactId emails phoneNumbers secondaryContactIds].
  assert (Hsec : forall c, In c others -> is_primary c = false).
  { intros c Hin. destruct (Hothers c Hin) as (_ & S & _).
    rewrite is_secondary_negb in S. now apply negb_true_iff in S. }
  assert (Hmem : forall f s,
    In s (spec_values f (P :: others)) <->
    exists c, In c (P :: others) /\ f c = Some s /\ s <> "").
  { intros f s.
    rewrite (spec_values_sorted f P others Hp Hs), first_occurrences_In,
      truthy_values_In.
    split; intros (c & Hin & Ef & T); exists c; repeat split; auto;
      now apply truthy_Some. }
  assert (Hfirst : forall f,
    primary_value_first f (P :: others) (spec_values f (P :: others))).
  { intros f Q s Hfind Ef T. cbn [find] in Hfind. rewrite Hp in Hfind.
    injection Hfind as <-. rewrite (spec_values_sorted f P others Hp Hs).
    now rewrite (truthy_values_head f P others s Ef T). }
  repeat split; try apply Hmem; try apply Hfirst; try exact Hsec;
    try (rewrite (spec_values_sorted _ P others Hp Hs);
         apply first_occurrences_NoDup).
  unfold spec_secondaryContactIds.
  rewrite (sort_by_createdAt_sorted_id _ (StronglySorted_filter _ _ _ Hs)).
  cbn [filter]. rewrite Hp. cbn [negb]. f_equal.
  apply forallb_filter_id, forallb_forall. intros c Hin.
  now rewrite (Hsec c Hin).
Qed.

(** X14.  In a well-formed, consistent store the cluster read for a
    primary starts with that primary; the others are secondaries linked to
    it, younger than it, and none has its id. *)
Theorem cluster_starts_with_primary st P :
  wf st -> consistent st ->
  In P (rows st) -> is_primary P = true ->
  exists others,
    run (findLinkedContacts (id P)) st =
      ([FindLinkedContacts (id P)], st, inr (P :: others)) /\
    ~ In (id P) (map id others) /\
    forall c, In c others ->
      In c (rows st) /\ is_secondary c = true /\
      linkedId c = Some (id P) /\ createdAt P < createdAt c.
Proof.
  intros Hwf Hc HP Hprim.
  destruct (cluster_head st P Hwf Hc HP Hprim) as (others & E & H).
  exists others. split; [|exact H].
  unfold findLinkedContacts. cbn [run exec]. now rewrite E.
Qed.

(** X15.  On a well-formed, consistent store a successful invocation
    returns the view of a cluster that starts with a primary [P] of the
    resulting store: [primaryContactId] is [P]'s id, [secondaryContactIds]
    are the ids of the other members and do not contain it, [P]'s own email
    and phone come first; and when something matched, [P] is a matched
    primary that no matched primary is older than. *)
Theorem identify_view_of_cluster e p st calls st' view :
  wf st -> consistent st ->
  identify (request e p) st = (calls, st', inr view) ->
  exists P others,
    In P (rows st') /\ is_primary P = true /\
    find_linked (id P) st' = P :: others /\
    primaryContactId view = id P /\
    secondaryContactIds view = map id others /\
    ~ In (primaryContactId view) (secondaryContactIds view) /\
    primary_value_first email (P :: others) (emails view) /\
    primary_value_first phoneNumber (P :: others) (phoneNumbers view) /\
    (forall c, In c (find_by e p st) -> is_primary c = true ->
               In P (find_by e p st) /\ createdAt P <= createdAt c).
Proof.
  unfold request. intros Hwf Hc Hrun.
  assert (Hwf' : wf st')
    by (pose proof (wf_identify e p st Hwf) as H; now rewrite Hrun in H).
  assert (Hc' : consistent st')
    by (pose proof (consistent_identify e p st Hwf Hc) as H; now rewrite Hrun in H).
  assert (Hview : forall P,
    In P (rows st') -> is_primary P = true ->
    buildConsolidatedResponse (find_linked (id P) st') = inr view ->
    exists others,
      find_linked (id P) st' = P :: others /\
      primaryContactId view = id P /\
      secondaryContactIds view = map id others /\
      ~ In (primaryContactId view) (secondaryContactIds view) /\
      primary_value_first email (P :: others) (emails view) /\
      primary_value_first phoneNumber (P :: others) (phoneNumbers view)).
  { intros P HP Hprim Hb.
    destruct (cluster_head st' P Hwf' Hc' HP Hprim)
      as (others & E & Hn & Hall).
    exists others. rewrite E in Hb.
    assert (Hsec : filter is_secondary (P :: others) = others).
    { cbn [filter]. rewrite is_secondary_negb, Hprim. cbn [negb].
      apply forallb_filter_id, forallb_forall. intros c Hin.
      now apply Hall. }
    assert (Hid : primaryContactId view = id P).
    { rewrite build_cons in Hb. injection Hb as <-.
      cbn [primaryContactId find]. now rewrite Hprim. }
    apply build_values in Hb as (-> & -> & ->).
    rewrite Hsec, Hid. repeat split; auto.
    - intros Q s Hfind Ef T. cbn [find] in Hfind. rewrite Hprim in Hfind.
      injection Hfind as <-. now rewrite (truthy_values_head email P others s Ef T).
    - intros Q s Hfind Ef T. cbn [find] in Hfind. rewrite Hprim in Hfind.
      injection Hfind as <-.
      now rewrite (truthy_values_head phoneNumber P others s Ef T). }
  destruct (identify_cases e p st)
    as [[He Hp] | [[Hv Hm] | [(Hv & Hne & Hnp) | (Hv & P & rest & HP)]]].
  - rewrite identify_invalid in Hrun by assumption. discriminate.
  - pose proof (identify_again_fresh e p st Hwf Hv Hm) as Hagain.
    rewrite identify_fresh in Hrun by assumption.
    injection Hrun as _ <- <-.
    set (N := new_row st (or_null e) (or_null p) None primary) in *.
    assert (HN : In N (rows (insert_row st N)))
      by (cbn; apply in_or_app; right; now left).
    destruct (Hview N HN eq_refl) as (others & H).
    { change (id N) with (nextId st).
      rewrite find_linked_insert_fresh by (auto; reflexivity).
      rewrite build_single_primary by reflexivity.
      cbn [N new_row id email phoneNumber]. now rewrite !singleton_or_null. }
    exists N, others. split; [exact HN|]. split; [reflexivity|].
    repeat split; try tauto; rewrite Hm in *; contradiction.
  - rewrite identify_no_primary in Hrun by assumption. discriminate.
  - rewrite (identify_matched e p st P rest Hv HP) in Hrun.
    injection Hrun as _ <- Hb.
    destruct (oldest_primary_survives e p st P rest HP Hwf) as (Hmin & HPin & _).
    assert (Hprim : is_primary P = true).
    { apply (matched_primary e p st P rest P HP). now left. }
    destruct (Hview P HPin Hprim Hb) as (others & H).
    exists P, others. split; [exact HPin|]. split; [exact Hprim|].
    repeat split; try tauto.
    + apply (matched_primary e p st P rest P HP). now left.
    + now apply Hmin.
Qed.

(** X16.  On a well-formed store a successful invocation that matched
    something keeps the earliest-created matched primary as it is, turns
    every other matched primary into a secondary linked to it, and writes
    nothing else except the secondary that records new information. *)
Theorem merge_keeps_oldest_primary e p st calls st' view :
  wf st ->
  identify (request e p) st = (calls, st', inr view) ->
  find_by e p st <> [] ->
  exists P rest,
    sort_by_createdAt (filter is_primary (find_by e p st)) = P :: rest /\
    (forall c, In c (P :: rest) <->
               In c (find_by e p st) /\ is_primary c = true) /\
    (forall c, In c rest -> createdAt P <= createdAt c) /\
    In P (rows st') /\
    (forall c, In c rest -> In (demote (id P) c) (rows st')) /\
    filter is_write calls =
      map (fun c => UpdateToSecondaryContact (id c) (id P)) rest
      ++ filter is_write
           (if new_information e p (find_by e p st)
            then [CreateSecondaryContact (or_null e) (or_null p) (id P)]
            else []).
Proof.
  unfold request. intros Hwf Hrun Hne.
  destruct (identify_cases e p st)
    as [[He Hp] | [[Hv Hm] | [(Hv & _ & Hnp) | (Hv & P & rest & HP)]]].
  - rewrite identify_invalid in Hrun by assumption. discriminate.
  - contradiction.
  - rewrite identify_no_primary in Hrun by assumption. discriminate.
  - rewrite (identify_matched e p st P rest Hv HP) in Hrun.
    injection Hrun as <- <- _.
    destruct (oldest_primary_survives e p st P rest HP Hwf) as (_ & HPin & Hdem).
    exists P, rest. split; [exact HP|].
    split; [intros c; now apply matched_primary|].
    split; [intros c Hc; apply (oldest_is_minimal e p st P rest HP); now right|].
    split; [exact HPin|]. split; [exact Hdem|].
    unfold merge_calls. cbn [filter is_write]. rewrite !filter_app.
    f_equal.
    + apply forallb_filter_id, forallb_forall.
      intros call Hin. apply in_map_iff in Hin as (c & <- & _). reflexivity.
    + cbn. now rewrite app_nil_r.
Qed.

(** * The controller *)

(** X17.  [identifyHandler] always answers, with status 200, 400 or 500:
    400 exactly when both fields are [undefined], and then without a store
    call; 200 exactly when the service returned a view, which is the body;
    500 exactly when the service threw, and the body carries the message of
    what it threw. *)
Theorem identifyHandler_responses requestBody st :
  exists response,
    result (identifyHandler requestBody st) = inr response /\
    (status response = 200 \/ status response = 400 \/ status response = 500) /\
    (status response = 400 <->
     body_email requestBody = js_undefined /\
     body_phoneNumber requestBody = js_undefined) /\
    (status response = 200 <->
     is_undefined (body_email requestBody)
       && is_undefined (body_phoneNumber requestBody) = false /\
     exists view,
       result (identify (request (field_of (body_email requestBody))
                                 (field_of (body_phoneNumber requestBody))) st)
         = inr view /\
       body response = contact_body view) /\
    (status response = 500 <->
     is_undefined (body_email requestBody)
       && is_undefined (body_phoneNumber requestBody) = false /\
     exists error,
       result (identify (request (field_of (body_email requestBody))
                                 (field_of (body_phoneNumber requestBody))) st)
         = inl error /\
       body response =
         error_body "Internal Server Error" (message_of error)) /\
    (status response = 400 ->
     store_calls (identifyHandler requestBody st) = [] /\
     final_store (identifyHandler requestBody st) = st).
Proof.
  destruct requestBody as [em ph]. unfold identifyHandler.
  cbn [body_email body_phoneNumber].
  destruct (is_undefined em && is_undefined ph) eqn:U.
  - eexists. split; [reflexivity|]. cbn [status].
    apply andb_true_iff in U as [U1 U2].
    destruct em, ph; try discriminate.
    repeat split; auto; try lia; try discriminate.
  - unfold request, identify in *.
    destruct (run (identifyContact (mkRequest (field_of em) (field_of ph))) st)
      as [[calls st'] [err | view]].
    + eexists. split; [reflexivity|]. cbn [status body result snd].
      repeat split; auto; try lia; try discriminate.
      * intros [-> ->]. discriminate.
      * intros [_ (view & Hv & _)]. discriminate.
      * eexists; split; reflexivity.
    + eexists. split; [reflexivity|]. cbn [status body result snd].
      repeat split; auto; try lia; try congruence.
      * intros [-> ->]. discriminate.
      * eexists; split; reflexivity.
      * intros [_ (error & He & _)]. discriminate.
Qed.

(** X18.  A body whose fields are [null], empty or missing, but not both
    [undefined], passes the handler's own check, fails the service's, and is
    answered with 500, not 400; no store call is made. *)
Theorem identifyHandler_null_fields requestBody st :
  is_undefined (body_email requestBody)
    && is_undefined (body_phoneNumber requestBody) = false ->
  absent (field_of (body_email requestBody)) = true ->
  absent (field_of (body_phoneNumber requestBody)) = true ->
  identifyHandler requestBody st =
  ([], st,
   inr (mkResponse 500
          (error_body "Internal Server Error" (message_of InvalidRequest)))).
Proof.
  unfold absent. intros U He Hp. apply negb_true_iff in He, Hp.
  unfold identifyHandler. rewrite U.
  fold (identify (mkRequest (field_of (body_email requestBody))
                            (field_of (body_phoneNumber requestBody))) st).
  now rewrite identify_invalid.
Qed.

Lemma identifyHandler_null_fields_witness :
  identifyHandler (mkBody js_null (js_string "")) one_primary =
  ([], one_primary,
   inr (mkResponse 500
          (error_body "Internal Server Error" (message_of InvalidRequest)))).
Proof.
  exact (identifyHandler_null_fields (mkBody js_null (js_string "")) one_primary
           eq_refl eq_refl eq_refl).
Defined.

(** * The flow builder *)

Lemma no_incoming_spec edges node :
  no_incoming edges node = true <->
  forall edge, In edge edges -> Flow.target edge <> Flow.node_id node.
Proof.
  unfold no_incoming, Flow.hasTargetHandle. rewrite negb_true_iff. split.
  - intros H edge Hin E.
    assert (existsb (fun edge => (Flow.target edge =? Flow.node_id node)%string)
                    edges = true).
    { apply existsb_exists. exists edge. split; auto. now apply String.eqb_eq. }
    congruence.
  - intros H.
    destruct (existsb (fun edge => (Flow.target edge =? Flow.node_id node)%string)
                      edges) eqn:E; auto.
    apply existsb_exists in E as (edge & Hin & E). apply String.eqb_eq in E.
    now destruct (H edge Hin).
Qed.

Lemma hasTargetHandle_spec nodeId edges :
  Flow.hasTargetHandle nodeId edges = true <->
  In nodeId (map Flow.target edges).
Proof.
  unfold Flow.hasTargetHandle. rewrite existsb_exists, in_map_iff.
  split; intros (edge & H1 & H2).
  - exists edge. apply String.eqb_eq in H2. auto.
  - exists edge. split; auto. now apply String.eqb_eq.
Qed.

Lemma validateFlow_unfold nodes edges :
  Flow.validateFlow nodes edges =
  match nodes with
  | [] => Flow.mkResult false (Some "No nodes in the flow to save.") None
  | [_] => Flow.mkResult true None None
  | _ =>
      if (1 <? List.length (filter (no_incoming edges) nodes))%nat then
        Flow.mkResult false
          (Some (Flow.show_length (filter (no_incoming edges) nodes)
                 ++ " nodes have empty target handles. Please connect all nodes before saving.")%string)
          (Some (map Flow.node_id (filter (no_incoming edges) nodes)))
      else Flow.mkResult true None None
  end.
Proof. destruct nodes as [|a [|b l]]; reflexivity. Qed.

Lemma filter_length_le {A} (f : A -> bool) l :
  (List.length (filter f l) <= List.length l)%nat.
Proof. induction l as [|x l IH]; simpl; [lia|]. destruct (f x); simpl; lia. Qed.

Lemma filter_length_mono {A} (f g : A -> bool) l :
  (forall x, In x l -> g x = true -> f x = true) ->
  (List.length (filter g l) <= List.length (filter f l))%nat.
Proof.
  induction l as [|x l IH]; simpl; intros H; [lia|].
  assert (IH' := IH (fun y Hy => H y (or_intror Hy))).
  destruct (g x) eqn:G.
  - rewrite (H x (or_introl eq_refl) G). simpl. lia.
  - destruct (f x); simpl; lia.
Qed.

(** X19.  [validateFlow] accepts a flow exactly when it has a node and at
    most one node without an incoming edge.  An accepted flow carries no
    error; the empty flow is rejected with its own message; any other
    rejected flow has two or more nodes without an incoming edge, and the
    result lists their ids in order and counts them in its message. *)
Theorem validateFlow_verdict nodes edges :
  (Flow.valid (Flow.validateFlow nodes edges) = true <->
   nodes <> [] /\
   (List.length (filter (no_incoming edges) nodes) <= 1)%nat) /\
  (Flow.valid (Flow.validateFlow nodes edges) = true ->
   Flow.error (Flow.validateFlow nodes edges) = None /\
   Flow.disconnectedNodes (Flow.validateFlow nodes edges) = None) /\
  (nodes = [] ->
   Flow.validateFlow nodes edges =
   Flow.mkResult false (Some "No nodes in the flow to save.") None) /\
  (nodes <> [] -> Flow.valid (Flow.validateFlow nodes edges) = false ->
   (2 <= List.length (filter (no_incoming edges) nodes))%nat /\
   Flow.disconnectedNodes (Flow.validateFlow nodes edges) =
     Some (map Flow.node_id (filter (no_incoming edges) nodes)) /\
   Flow.error (Flow.validateFlow nodes edges) =
     Some (Flow.show_length (filter (no_incoming edges) nodes)
           ++ " nodes have empty target handles. Please connect all nodes before saving.")%string).
Proof.
  rewrite validateFlow_unfold.
  destruct nodes as [|a [|b l]].
  - repeat split; try discriminate; try tauto; intros [H _]; congruence.
  - pose proof (filter_length_le (no_incoming edges) [a]) as Hle.
    cbn [List.length] in Hle.
    repeat split; try discriminate; auto.
  - destruct (1 <? List.length (filter (no_incoming edges) (a :: b :: l)))%nat
      eqn:E.
    + apply Nat.ltb_lt in E. cbn [Flow.valid Flow.error Flow.disconnectedNodes].
      repeat split; try discriminate; auto. intros [_ H]. lia.
    + apply Nat.ltb_ge in E. cbn [Flow.valid Flow.error Flow.disconnectedNodes].
      repeat split; try discriminate; auto.
Qed.

Lemma validateFlow_valid_iff nodes edges :
  Flow.valid (Flow.validateFlow nodes edges) = true <->
  nodes <> [] /\
  (List.length (filter (no_incoming edges) nodes) <= 1)%nat.
Proof.
  rewrite validateFlow_unfold.
  destruct nodes as [|a [|b l]].
  - split; [discriminate | intros [H _]; congruence].
  - pose proof (filter_length_le (no_incoming edges) [a]) as Hle.
    cbn [List.length] in Hle. split; [split; [discriminate | exact Hle] | reflexivity].
  - destruct (1 <? List.length (filter (no_incoming edges) (a :: b :: l)))%nat
      eqn:E; cbn [Flow.valid].
    + apply Nat.ltb_lt in E. split; [discriminate | intros [_ H]; lia].
    + apply Nat.ltb_ge in E. split; [split; [discriminate | exact E] | reflexivity].
Qed.

(** X20.  Edges never hurt: a flow that [validateFlow] accepts is still
    accepted with any edges whose targets cover the old targets. *)
Theorem validateFlow_more_edges nodes edges edges' :
  (forall edge, In edge edges ->
                In (Flow.target edge) (map Flow.target edges')) ->
  Flow.valid (Flow.validateFlow nodes edges) = true ->
  Flow.valid (Flow.validateFlow nodes edges') = true.
Proof.
  intros Hsub Hv.
  apply validateFlow_valid_iff in Hv as [Hne Hle].
  apply validateFlow_valid_iff. split; [exact Hne|].
  etransitivity; [|exact Hle]. apply filter_length_mono.
  intros node _ H. apply no_incoming_spec. intros edge Hin E.
  rewrite no_incoming_spec in H.
  apply Hsub, in_map_iff in Hin as (edge' & E' & Hin').
  apply (H edge' Hin'). congruence.
Qed.

(** X21.  [validateFlow] reads nothing of the edges but their targets: two
    edge lists with the same targets get the same result, whatever their
    sources and ids. *)
Theorem validateFlow_reads_targets_only nodes edges edges' :
  (forall t, In t (map Flow.target edges) <-> In t (map Flow.target edges')) ->
  Flow.validateFlow nodes edges = Flow.validateFlow nodes edges'.
Proof.
  intros H. rewrite !validateFlow_unfold.
  assert (E : filter (no_incoming edges) nodes = filter (no_incoming edges') nodes).
  { apply filter_ext. intros node. unfold no_incoming. f_equal.
    destruct (Flow.hasTargetHandle (Flow.node_id node) edges) eqn:E1,
             (Flow.hasTargetHandle (Flow.node_id node) edges') eqn:E2; auto.
    - apply hasTargetHandle_spec, H, hasTargetHandle_spec in E1. congruence.
    - apply hasTargetHandle_spec, H, hasTargetHandle_spec in E2. congruence. }
  now rewrite E.
Qed.

(** X22.  A flow with distinct node ids that [validateFlow] accepts has at
    most one node more than it has edges. *)
Theorem valid_flow_has_enough_edges nodes edges :
  NoDup (map Flow.node_id nodes) ->
  Flow.valid (Flow.validateFlow nodes edges) = true ->
  (List.length nodes <= List.length edges + 1)%nat.
Proof.
  intros Hnd Hv. apply validateFlow_valid_iff in Hv as [_ Hle].
  pose proof (filter_length (no_incoming edges) nodes) as Hsplit.
  assert (Htargets :
    (List.length (filter (fun x => negb (no_incoming edges x)) nodes)
     <= List.length edges)%nat).
  { rewrite <- (length_map Flow.node_id), <- (length_map Flow.target edges).
    apply NoDup_incl_length.
    - now apply NoDup_map_filter.
    - intros t Hin. apply in_map_iff in Hin as (node & <- & Hnode).
      apply filter_In in Hnode as [_ Hn]. unfold no_incoming in Hn.
      rewrite negb_involutive in Hn. now apply hasTargetHandle_spec. }
  lia.
Qed.

(** X23.  The store's own [validateFlow] and the one of the validation
    module disagree on the empty flow alone: the store accepts it, the module
    rejects it.  On any other flow they give the same verdict and the same
    disconnected nodes, and the store's message is the module's behind
    ["Error: "]. *)
Theorem store_validateFlow_agrees s :
  match Flow.nodes s with
  | [] =>
      Flow.valid (Flow.store_validateFlow s) = true /\
      Flow.valid (Flow.validateFlow (Flow.nodes s) (Flow.edges s)) = false
  | _ =>
      Flow.valid (Flow.store_validateFlow s) =
        Flow.valid (Flow.validateFlow (Flow.nodes s) (Flow.edges s)) /\
      option_map (map Flow.node_id)
                 (Flow.disconnectedNodes (Flow.store_validateFlow s)) =
        Flow.disconnectedNodes
          (Flow.validateFlow (Flow.nodes s) (Flow.edges s)) /\
      Flow.error (Flow.store_validateFlow s) =
        option_map (String.append "Error: ")
          (Flow.error (Flow.validateFlow (Flow.nodes s) (Flow.edges s)))
  end.
Proof.
  rewrite validateFlow_unfold. unfold Flow.store_validateFlow.
  destruct (Flow.nodes s) as [|a [|b l]]; [split; reflexivity | repeat split |].
  cbn [List.length Nat.leb].
  change (filter _ (a :: b :: l))
    with (filter (no_incoming (Flow.edges s)) (a :: b :: l)).
  destruct (1 <? List.length (filter (no_incoming (Flow.edges s)) (a :: b :: l)))%nat;
    repeat split.
Qed.


Lemma filter_all {A} (f : A -> bool) l :
  (forall x, In x l -> f x = true) -> filter f l = l.
Proof.
  induction l as [|x l IH]; simpl; intros H; auto.
  rewrite (H x) by auto. f_equal. apply IH. auto.
Qed.

Lemma toasts_ok_perform a w : toasts_ok w -> toasts_ok (Flow.perform a w).
Proof.
  intros (H0 & Hnd & Hr).
  destruct a; try (split; [exact H0 | split; [exact Hnd | exact Hr]]).
  - (* AddToast *)
    unfold toasts_ok. cbn [Flow.perform Flow.addToast snd Flow.state Flow.toasts
      Flow.toastId]. split; [lia | split].
    + rewrite map_app.
      apply NoDup_app; [exact Hnd | repeat constructor; simpl; tauto |].
      intros k Hin [<- | []]. apply in_map_iff in Hin as (t & E & Ht).
      apply Hr in Ht. simpl in E. lia.
    + intros t [Ht | [<- | []]]%in_app_or.
      * apply Hr in Ht. lia.
      * cbn [Flow.toast_id]. lia.
  - (* RemoveToast *)
    unfold toasts_ok. cbn [Flow.perform Flow.removeToast Flow.state Flow.toasts
      Flow.toastId]. split; [exact H0 | split].
    + now apply NoDup_map_filter.
    + intros t Ht. apply filter_In in Ht as [Ht _]. now apply Hr.
Qed.

Lemma toasts_ok_initial : toasts_ok Flow.initial.
Proof. split; [simpl; lia | split; [constructor | intros t []]]. Qed.

Lemma toasts_ok_perform_all actions : forall w,
  toasts_ok w -> toasts_ok (perform_all actions w).
Proof.
  induction actions as [|a l IH]; intros w H; [exact H|].
  apply IH. now apply toasts_ok_perform.
Qed.

(** X24.  Whatever is done to the store, its toasts carry distinct,
    positive ids that the counter has reached. *)
Theorem toast_ids_distinct actions :
  toasts_ok (perform_all actions Flow.initial).
Proof. apply toasts_ok_perform_all, toasts_ok_initial. Qed.

(** X25.  In such a store [addToast] returns an id that no toast has, and
    [removeToast] of that id undoes it: the store is as before. *)
Theorem addToast_then_removeToast msg type w :
  toasts_ok w ->
  ~ In (fst (Flow.addToast msg type w))
       (map Flow.toast_id (Flow.toasts (Flow.state w))) /\
  Flow.removeToast (fst (Flow.addToast msg type w))
                   (Flow.state (snd (Flow.addToast msg type w))) =
  Flow.state w.
Proof.
  intros (H0 & Hnd & Hr).
  assert (Hfresh : forall t, In t (Flow.toasts (Flow.state w)) ->
                             Flow.toast_id t <> Flow.toastId w + 1).
  { intros t Ht. apply Hr in Ht. lia. }
  split.
  - cbn [Flow.addToast fst]. intros Hin.
    apply in_map_iff in Hin as (t & E & Ht). now apply (Hfresh t).
  - unfold Flow.removeToast.
    cbn [Flow.addToast fst snd Flow.state Flow.nodes Flow.edges
         Flow.selectedNode Flow.message Flow.toasts].
    rewrite filter_app. cbn [filter Flow.toast_id]. rewrite Z.eqb_refl.
    cbn [negb]. rewrite app_nil_r, filter_all.
    + now destruct w as [n []].
    + intros t Ht. apply negb_true_iff, Z.eqb_neq. now apply Hfresh.
Qed.

(** X26.  When toast ids are distinct, [removeToast] of a toast's id takes
    out that toast and keeps the others in their order. *)
Theorem removeToast_removes_one t s :
  NoDup (map Flow.toast_id (Flow.toasts s)) ->
  In t (Flow.toasts s) ->
  exists before after,
    Flow.toasts s = before ++ t :: after /\
    Flow.toasts (Flow.removeToast (Flow.toast_id t) s) = before ++ after.
Proof.
  intros Hnd Hin. apply in_split in Hin as (before & after & E).
  exists before, after. split; [exact E|].
  unfold Flow.removeToast. cbn [Flow.toasts]. rewrite E in *.
  rewrite map_app in Hnd. cbn [map] in Hnd.
  apply NoDup_remove_2 in Hnd.
  rewrite filter_app. cbn [filter]. rewrite Z.eqb_refl. cbn [negb].
  rewrite !filter_all; [reflexivity | |];
    intros x Hx; apply negb_true_iff, Z.eqb_neq; intros Heq;
    apply Hnd, in_or_app; [right | left]; rewrite <- Heq; now apply in_map.
Qed.


Lemma obj_get_set_same o key value :
  Flow.obj_get (Flow.obj_set o key value) key = Some value.
Proof.
  induction o as [|[k v] o IH]; simpl.
  - now rewrite String.eqb_refl.
  - destruct (k =? key)%string eqn:E; simpl; now rewrite E.
Qed.

Lemma obj_get_set_other o key value key' :
  key <> key' ->
  Flow.obj_get (Flow.obj_set o key value) key' = Flow.obj_get o key'.
Proof.
  intros Hne. induction o as [|[k v] o IH]; simpl.
  - now replace (key =? key')%string with false
      by (symmetry; now apply String.eqb_neq).
  - destruct (k =? key)%string eqn:E; simpl.
    + apply String.eqb_eq in E. subst k.
      now replace (key =? key')%string with false
        by (symmetry; now apply String.eqb_neq).
    + now rewrite IH.
Qed.

Lemma obj_get_none o key :
  ~ In key (map fst o) -> Flow.obj_get o key = None.
Proof.
  induction o as [|[k v] o IH]; simpl; [reflexivity|].
  intros H. destruct (k =? key)%string eqn:E.
  - apply String.eqb_eq in E. tauto.
  - apply IH. tauto.
Qed.

Lemma obj_get_spread b : forall a key,
  NoDup (map fst b) ->
  Flow.obj_get (Flow.spread a b) key =
  match Flow.obj_get b key with
  | Some v => Some v
  | None => Flow.obj_get a key
  end.
Proof.
  unfold Flow.spread.
  induction b as [|[k v] b IH]; intros a key Hnd; [reflexivity|].
  cbn [fold_left fst snd map] in *. inversion Hnd as [|? ? Hn Hd]; subst.
  rewrite (IH _ key Hd). cbn [Flow.obj_get].
  destruct (k =? key)%string eqn:E.
  - apply String.eqb_eq in E. subst k.
    now rewrite (obj_get_none b key Hn), obj_get_set_same.
  - apply String.eqb_neq in E. now rewrite obj_get_set_other.
Qed.

(** X27.  [updateNodeData] keeps the ids, types and order of the nodes, the
    edges, the toasts and the message; a node with another id is untouched;
    a node with the given id reads the new value at every key of [data] and
    its old value elsewhere; and a selected node that was a node of the store
    is one afterwards. *)
Theorem updateNodeData_effect nodeId data s :
  NoDup (map fst data) ->
  map Flow.node_id (Flow.nodes (Flow.updateNodeData nodeId data s)) =
    map Flow.node_id (Flow.nodes s) /\
  map Flow.node_type (Flow.nodes (Flow.updateNodeData nodeId data s)) =
    map Flow.node_type (Flow.nodes s) /\
  Flow.edges (Flow.updateNodeData nodeId data s) = Flow.edges s /\
  Flow.toasts (Flow.updateNodeData nodeId data s) = Flow.toasts s /\
  Flow.message (Flow.updateNodeData nodeId data s) = Flow.message s /\
  (forall node, In node (Flow.nodes s) -> Flow.node_id node <> nodeId ->
                In node (Flow.nodes (Flow.updateNodeData nodeId data s))) /\
  (forall node', In node' (Flow.nodes (Flow.updateNodeData nodeId data s)) ->
     Flow.node_id node' = nodeId ->
     exists node, In node (Flow.nodes s) /\
       Flow.node_id node = nodeId /\
       forall key,
         Flow.obj_get (Flow.node_data node') key =
         match Flow.obj_get data key with
         | Some v => Some v
         | None => Flow.obj_get (Flow.node_data node) key
         end) /\
  (forall selected, Flow.selectedNode s = Some selected ->
     In selected (Flow.nodes s) ->
     exists selected',
       Flow.selectedNode (Flow.updateNodeData nodeId data s) = Some selected' /\
       Flow.node_id selected' = Flow.node_id selected /\
       In selected' (Flow.nodes (Flow.updateNodeData nodeId data s))) /\
  (Flow.selectedNode s = None ->
   Flow.selectedNode (Flow.updateNodeData nodeId data s) = None).
Proof.
  intros Hnd. unfold Flow.updateNodeData.
  cbn [Flow.nodes Flow.edges Flow.toasts Flow.message Flow.selectedNode].
  set (F := fun node : Flow.Node =>
              if (Flow.node_id node =? nodeId)%string
              then Flow.with_data node data else node).
  assert (Hid : forall node, Flow.node_id (F node) = Flow.node_id node).
  { intros node. unfold F. now destruct (Flow.node_id node =? nodeId)%string. }
  assert (Hty : forall node, Flow.node_type (F node) = Flow.node_type node).
  { intros node. unfold F. now destruct (Flow.node_id node =? nodeId)%string. }
  split; [rewrite map_map; now apply map_ext|].
  split; [rewrite map_map; now apply map_ext|].
  do 3 (split; [reflexivity|]).
  split; [|split; [|split]].
  - intros node Hin Hne.
    replace node with (F node) at 1; [now apply in_map|].
    unfold F. now replace (Flow.node_id node =? nodeId)%string with false
      by (symmetry; now apply String.eqb_neq).
  - intros node' Hin E. apply in_map_iff in Hin as (node & <- & Hin).
    rewrite Hid in E. exists node. split; [exact Hin|]. split; [exact E|].
    intros key. unfold F. rewrite E, String.eqb_refl.
    cbn [Flow.with_data Flow.node_data]. now apply obj_get_spread.
  - intros selected -> Hin. exists (F selected). split; [|split].
    + unfold F. now destruct (Flow.node_id selected =? nodeId)%string.
    + apply Hid.
    + now apply in_map.
  - now intros ->.
Qed.

(** ** The examples, as stores *)

Lemma one_primary_reachable : reachable one_primary.
Proof. apply after_reachable; [constructor | reflexivity]. Qed.

Lemma two_primaries_reachable : reachable two_primaries.
Proof. apply after_reachable; [constructor | reflexivity]. Qed.

Lemma two_clusters_reachable : reachable two_clusters.
Proof. apply after_reachable; [constructor | reflexivity]. Qed.

Lemma joined_reachable : reachable joined.
Proof.
  apply reach_identify
    with (view := mkConsolidated 1 ["a@x.com"; "b@x.com"] ["111"; "222"] [2]).
  - apply two_clusters_reachable.
  - reflexivity.
Qed.

(** ** The properties at the examples *)

Lemma createPrimaryContact_then_find_witness :
  exists c,
    run (createPrimaryContact (Some "b@x.com") None) one_primary =
      ([CreatePrimaryContact (Some "b@x.com") None],
       insert_row one_primary c, inr c) /\
    find_linked (id c) (insert_row one_primary c) = [c].
Proof.
  destruct (createPrimaryContact_then_find (Some "b@x.com") None one_primary
              (reachable_wf _ one_primary_reachable))
    as (c & Hrun & _ & _ & _ & _ & _ & _ & Hfind & _).
  exists c. split; assumption.
Defined.

Lemma createSecondaryContact_then_find_witness :
  exists c,
    run (createSecondaryContact (Some "a@x.com") (Some "222") 1) one_primary =
      ([CreateSecondaryContact (Some "a@x.com") (Some "222") 1],
       insert_row one_primary c, inr c) /\
    In c (find_linked 1 (insert_row one_primary c)).
Proof.
  destruct (createSecondaryContact_then_find (Some "a@x.com") (Some "222") 1
              one_primary (reachable_wf _ one_primary_reachable))
    as (c & Hrun & _ & _ & _ & _ & _ & _ & Hfind & _).
  exists c. split; assumption.
Defined.


Lemma updateToSecondaryContact_existing_witness :
  exists st',
    run (updateToSecondaryContact 2 1) two_primaries =
      ([UpdateToSecondaryContact 2 1], st', inr (demote 1 phone_only_contact)) /\
    In (demote 1 phone_only_contact) (rows st').
Proof.
  destruct (updateToSecondaryContact_existing phone_only_contact 1 two_primaries
              (wf_key _ (reachable_wf _ two_primaries_reachable))
              (or_intror (or_introl eq_refl)))
    as (st' & Hrun & Hin & _).
  exists st'. split; assumption.
Defined.

Lemma own_errors_write_nothing_witness :
  run_unreliable [false; true] (identifyContact (request None (Some "222")))
                 primary_and_secondary =
    ([FindContactsByEmailOrPhone None (Some "222")], primary_and_secondary,
     inl (thrown TypeErrorUndefined)) /\
  forallb (fun c => negb (is_write c))
          [FindContactsByEmailOrPhone None (Some "222")] = true.
Proof.
  split; [reflexivity|].
  exact (proj2 (own_errors_write_nothing [false; true] None (Some "222")
                  primary_and_secondary
                  [FindContactsByEmailOrPhone None (Some "222")]
                  primary_and_secondary TypeErrorUndefined eq_refl
                  (or_intror eq_refl))).
Defined.

Lemma identify_leaves_secondaries_witness :
  In dependent_contact (rows (final_store (identify joining_request two_clusters))).
Proof.
  exact (identify_leaves_secondaries (Some "a@x.com") (Some "222") two_clusters
           dependent_contact
           (wf_key _ (reachable_wf _ two_clusters_reachable))
           (or_intror (or_intror (or_introl eq_refl))) eq_refl).
Defined.

Lemma identify_records_values_witness :
  value_free phoneNumber (Some "222")
    (final_store (identify joining_request one_primary)) = false.
Proof.
  exact (proj2 (identify_records_values (Some "a@x.com") (Some "222")
                  one_primary
                  (mkConsolidated 1 ["a@x.com"] ["111"; "222"] [2]) eq_refl)
               eq_refl).
Defined.

Lemma created_contact_is_in_view_witness :
  In "222" (phoneNumbers (mkConsolidated 1 ["a@x.com"] ["111"; "222"] [2])).
Proof.
  assert (Hin : In (CreateSecondaryContact (Some "a@x.com") (Some "222") 1)
                   (store_calls (identify joining_request one_primary))).
  { right. left. reflexivity. }
  assert (Hne : "222" <> "") by discriminate.
  exact (proj2 (created_contact_is_in_view (Some "a@x.com") (Some "222")
                  one_primary
                  (mkConsolidated 1 ["a@x.com"] ["111"; "222"] [2])
                  _ eq_refl Hin eq_refl)
               "222" eq_refl Hne).
Defined.

Lemma reachable_store_invariants_witness : wf joined /\ consistent joined.
Proof. exact (reachable_store_invariants joined joined_reachable). Defined.

Lemma builder_on_cluster_read_witness :
  exists view,
    buildConsolidatedResponse (find_linked 1 joined) = inr view /\
    primaryContactId view = 1 /\
    emails view = ["a@x.com"; "b@x.com"] /\
    phoneNumbers view = ["111"; "222"] /\
    secondaryContactIds view = [2].
Proof.
  destruct (builder_on_cluster_read joined first_contact
              (reachable_wf _ joined_reachable)
              (reachable_consistent _ joined_reachable)
              (or_introl eq_refl) eq_refl)
    as (others & view & _ & _ & Hb & Hi & He & Hph & Hs & _).
  exists view. repeat split; assumption.
Defined.

Lemma cluster_starts_with_primary_witness :
  exists others,
    run (findLinkedContacts 1) joined =
      ([FindLinkedContacts 1], joined, inr (first_contact :: others)) /\
    ~ In 1 (map id others).
Proof.
  destruct (cluster_starts_with_primary joined first_contact
              (reachable_wf _ joined_reachable)
              (reachable_consistent _ joined_reachable)
              (or_introl eq_refl) eq_refl)
    as (others & Hrun & Hn & _).
  exists others. split; assumption.
Defined.

Lemma identify_view_of_cluster_witness :
  exists P others,
    find_linked (id P) joined = P :: others /\
    1 = id P /\ [2] = map id others.
Proof.
  destruct (identify_view_of_cluster (Some "a@x.com") (Some "222") two_clusters
              [ FindContactsByEmailOrPhone (Some "a@x.com") (Some "222");
                UpdateToSecondaryContact 2 1;
                FindLinkedContacts 1 ]
              joined
              (mkConsolidated 1 ["a@x.com"; "b@x.com"] ["111"; "222"] [2])
              (reachable_wf _ two_clusters_reachable)
              (reachable_consistent _ two_clusters_reachable)
              eq_refl)
    as (P & others & _ & _ & Hfind & Hid & Hsec & _).
  exists P, others. repeat split; assumption.
Defined.

Lemma merge_keeps_oldest_primary_witness :
  exists P rest,
    sort_by_createdAt
      (filter is_primary (find_by (Some "a@x.com") (Some "222") two_clusters))
      = P :: rest /\
    In P (rows joined).
Proof.
  assert (Hne : find_by (Some "a@x.com") (Some "222") two_clusters <> [])
    by discriminate.
  destruct (merge_keeps_oldest_primary (Some "a@x.com") (Some "222")
              two_clusters
              [ FindContactsByEmailOrPhone (Some "a@x.com") (Some "222");
                UpdateToSecondaryContact 2 1;
                FindLinkedContacts 1 ]
              joined
              (mkConsolidated 1 ["a@x.com"; "b@x.com"] ["111"; "222"] [2])
              (reachable_wf _ two_clusters_reachable) eq_refl Hne)
    as (P & rest & HP & _ & _ & Hin & _).
  exists P, rest. split; assumption.
Defined.

Lemma validateFlow_more_edges_witness :
  Flow.valid (Flow.validateFlow [node_a; node_b] [edge_ab; edge_ba]) = true.
Proof.
  apply (validateFlow_more_edges [node_a; node_b] [edge_ab]).
  - intros edge [<- | []]. left. reflexivity.
  - reflexivity.
Defined.

Lemma validateFlow_reads_targets_only_witness :
  Flow.validateFlow [node_a; node_b] [edge_ab] =
  Flow.validateFlow [node_a; node_b] [edge_xb].
Proof.
  apply validateFlow_reads_targets_only.
  intros t. split; intros H; exact H.
Defined.

Lemma valid_flow_has_enough_edges_witness :
  (List.length [node_a; node_b] <= List.length [edge_ab] + 1)%nat.
Proof.
  apply valid_flow_has_enough_edges.
  - repeat constructor; simpl; intuition discriminate.
  - reflexivity.
Defined.

Lemma addToast_then_removeToast_witness :
  Flow.removeToast (fst (Flow.addToast "saved" None Flow.initial))
    (Flow.state (snd (Flow.addToast "saved" None Flow.initial))) =
  Flow.state Flow.initial.
Proof.
  exact (proj2 (addToast_then_removeToast "saved" None Flow.initial
                  toasts_ok_initial)).
Defined.

Lemma removeToast_removes_one_witness :
  exists before after,
    Flow.toasts two_toasts = before ++ Flow.mkToast 2 "failed" "error" :: after /\
    Flow.toasts (Flow.removeToast 2 two_toasts) = before ++ after.
Proof.
  apply (removeToast_removes_one (Flow.mkToast 2 "failed" "error") two_toasts).
  - repeat constructor; simpl; intuition discriminate.
  - right. left. reflexivity.
Defined.

Lemma updateNodeData_effect_witness :
  map Flow.node_id
      (Flow.nodes (Flow.updateNodeData "a" [("text", "hello")]
                     one_node_selected)) = ["a"; "b"].
Proof.
  assert (Hnd : NoDup (map fst [("text", "hello")]))
    by (repeat constructor; simpl; tauto).
  exact (proj1 (updateNodeData_effect "a" [("text", "hello")]
                  one_node_selected Hnd)).
Defined.
